(** * The tiered file store of go-file-conversion (src/main.go)

    A shallow embedding of [FileStore] and of the operations that work on
    it: [generateID], [AddFile], [GetFile], [deleteFileInternal] and one
    tick of [cleanupRoutine].

    Conventions of the embedding.
    - A Go [int64] is a [Z]; additions and subtractions on the usage
      counter go through [int64_wrap], Go's two's complement wrap-around.
    - A [time.Time] is a [Z], the monotonic clock reading in nanoseconds
      (every time value of the store comes from [time.Now], so Go compares
      them by that reading).
    - A [[]byte] is a [list byte]; a Go map is a [gmap].
    - What the operating system decides is an input of the operation: the
      random bytes, the uploaded content, the clock readings, what the
      disk write does. The filesystem under the store is a finite map
      from paths to contents; reading a file is the lookup of its path and
      removing it takes the path out of the map.
    - [filepath.Join] belongs to Go's library; the operations take it as a
      parameter. *)

From Stdlib Require Import ZArith Lia Strings.Byte Strings.Ascii Strings.String.
From stdpp Require Import gmap strings list fin_maps.

Local Open Scope Z_scope.

(** ** Configuration constants (main.go, lines 24-36) *)

(** [10 * time.Minute], a [time.Duration] in nanoseconds. *)
Definition fileExpiryDuration : Z := 10 * (60 * 1000000000).

(** [16 * 1024 * 1024 * 1024]. *)
Definition ramLimitBytes : Z := 16 * 1024 * 1024 * 1024.

Definition defaultDiskPath : string := "temp_files".

(** ** Machine integers and clock values *)

Definition minInt64 : Z := - 2 ^ 63.
Definition maxInt64 : Z := 2 ^ 63 - 1.

Definition int64_wrap (z : Z) : Z := (z + 2 ^ 63) mod 2 ^ 64 - 2 ^ 63.

Definition int64_add (a b : Z) : Z := int64_wrap (a + b).
Definition int64_sub (a b : Z) : Z := int64_wrap (a - b).

(** [int64(len(b))]. *)
Definition len64 (b : list byte) : Z := Z.of_nat (length b).

(** [t.Add(d)] and [t.After(u)]. *)
Definition time_Add (t d : Z) : Z := t + d.
Definition time_After (t u : Z) : bool := u <? t.

(** ** Data model (main.go, lines 38-58) *)

Record FileMetadata := mkFileMetadata {
  ID : string;
  OriginalName : string;
  ConvertedName : string;
  Size : Z;
  UploadTime : Z;
  ExpiryTime : Z;
  IsInMemory : bool;
  Path : string;
  ContentType : string
}.

Record FileStore := mkFileStore {
  files : gmap string FileMetadata;
  ramStore : gmap string (list byte);
  currentRAMUsage : Z;
  diskPath : string
}.

(** The files below the store: path to content. *)
Abbreviation Disk := (gmap string (list byte)).

Definition set_ConvertedName (n : string) (m : FileMetadata) : FileMetadata :=
  mkFileMetadata (ID m) (OriginalName m) n (Size m) (UploadTime m)
    (ExpiryTime m) (IsInMemory m) (Path m) (ContentType m).

Definition set_ContentType (c : string) (m : FileMetadata) : FileMetadata :=
  mkFileMetadata (ID m) (OriginalName m) (ConvertedName m) (Size m)
    (UploadTime m) (ExpiryTime m) (IsInMemory m) (Path m) c.

Definition set_IsInMemory (b : bool) (m : FileMetadata) : FileMetadata :=
  mkFileMetadata (ID m) (OriginalName m) (ConvertedName m) (Size m)
    (UploadTime m) (ExpiryTime m) b (Path m) (ContentType m).

Definition set_Path (p : string) (m : FileMetadata) : FileMetadata :=
  mkFileMetadata (ID m) (OriginalName m) (ConvertedName m) (Size m)
    (UploadTime m) (ExpiryTime m) (IsInMemory m) p (ContentType m).

Definition set_files (f : gmap string FileMetadata) (fs : FileStore) : FileStore :=
  mkFileStore f (ramStore fs) (currentRAMUsage fs) (diskPath fs).

Definition set_ramStore (r : gmap string (list byte)) (fs : FileStore) : FileStore :=
  mkFileStore (files fs) r (currentRAMUsage fs) (diskPath fs).

Definition set_currentRAMUsage (u : Z) (fs : FileStore) : FileStore :=
  mkFileStore (files fs) (ramStore fs) u (diskPath fs).

(** ** Errors and results *)

(** One constructor per [fmt.Errorf] of the store, in source order. *)
Inductive error :=
| ErrGenerateID        (* "failed to generate file ID: %w" *)
| ErrReadContent       (* "failed to read file content: %w" *)
| ErrConversion        (* "conversion failed: %w" *)
| ErrWriteDisk         (* "failed to write file to disk: %w" *)
| ErrNotFoundOrExpired (* "file not found or expired" *)
| ErrInconsistency     (* "file metadata inconsistency: RAM file not found" *)
| ErrReadDisk.         (* "failed to read file from disk: %w" *)

Inductive result (A : Type) :=
| Ok (a : A)
| Err (e : error).
Arguments Ok {A} a.
Arguments Err {A} e.

(** What a call of [os.WriteFile] did: it wrote the file, or it returned
    an error and left the path alone ([None]) or holding some other bytes
    (a truncated or partial file). *)
Inductive writeOutcome :=
| WriteDone
| WriteFailed (leftover : option (list byte)).

Definition failedWrite (path : string) (leftover : option (list byte))
    (d : gmap string (list byte)) : gmap string (list byte) :=
  match leftover with
  | None => d
  | Some junk => <[path := junk]> d
  end.

#[global] Instance error_eq_dec : EqDecision error.
Proof. solve_decision. Defined.

(** ** NewFileStore (main.go, lines 60-84)

    [mkdir1] and [mkdir2] say whether the two [os.MkdirAll] calls succeed;
    [None] is [log.Fatalf]. *)
Definition NewFileStore (mkdir1 mkdir2 : bool) (path : string) : option FileStore :=
  let path := if decide (path = "") then defaultDiskPath else path in
  if mkdir1 then Some (mkFileStore ∅ ∅ 0 path)
  else if mkdir2 then Some (mkFileStore ∅ ∅ 0 defaultDiskPath)
  else None.

(** ** generateID (main.go, lines 86-93) *)

Definition hextable : string := "0123456789abcdef".

Definition hexdigit (n : N) : ascii :=
  default "0"%char (String.get (N.to_nat n) hextable).

(** [hex.EncodeToString]. *)
Fixpoint EncodeToString (src : list byte) : string :=
  match src with
  | [] => EmptyString
  | v :: rest =>
      String (hexdigit (N.shiftr (Byte.to_N v) 4))
        (String (hexdigit (N.land (Byte.to_N v) 15)) (EncodeToString rest))
  end.

(** [rand_Read] is what [rand.Read(b)] did for the 16-byte buffer [b]:
    the bytes it wrote, or [None] for its error. *)
Definition generateID (rand_Read : option (list byte)) : option string :=
  match rand_Read with
  | None => None
  | Some b => Some (EncodeToString b)
  end.

(** ** getContentTypeForExtension (main.go, lines 161-243) *)

Definition contentTypes : list (string * string) :=
  [ ("jpg", "image/jpeg"); ("jpeg", "image/jpeg"); ("png", "image/png");
    ("gif", "image/gif"); ("webp", "image/webp"); ("bmp", "image/bmp");
    ("tiff", "image/tiff"); ("svg", "image/svg+xml");
    ("mp3", "audio/mpeg"); ("wav", "audio/wav"); ("ogg", "audio/ogg");
    ("flac", "audio/flac"); ("aac", "audio/aac"); ("wma", "audio/x-ms-wma");
    ("mp4", "video/mp4"); ("avi", "video/x-msvideo");
    ("mov", "video/quicktime"); ("webm", "video/webm");
    ("mkv", "video/x-matroska"); ("flv", "video/x-flv");
    ("pdf", "application/pdf");
    ("docx", "application/vnd.openxmlformats-officedocument.wordprocessingml.document");
    ("doc", "application/msword"); ("txt", "text/plain");
    ("html", "text/html"); ("md", "text/markdown");
    ("pptx", "application/vnd.openxmlformats-officedocument.presentationml.presentation");
    ("ppt", "application/vnd.ms-powerpoint");
    ("xlsx", "application/vnd.openxmlformats-officedocument.spreadsheetml.sheet");
    ("xls", "application/vnd.ms-excel"); ("csv", "text/csv");
    ("zip", "application/zip"); ("tar", "application/x-tar");
    ("rar", "application/x-rar-compressed") ].

Fixpoint switch_string (cases : list (string * string)) (dflt x : string) : string :=
  match cases with
  | [] => dflt
  | (k, v) :: rest => if String.eqb x k then v else switch_string rest dflt x
  end.

Definition getContentTypeForExtension (ext : string) : string :=
  switch_string contentTypes "application/octet-stream" ext.

(** ** Inputs of one AddFile call

    Everything [AddFile] obtains from outside the store, in the order in
    which the code asks for it. *)
Record AddEnv := mkAddEnv {
  (** [rand.Read] inside [generateID] *)
  rand_Read : option (list byte);
  (** [io.ReadAll(file)] *)
  io_ReadAll : option (list byte);
  (** [header.Filename] *)
  Filename : string;
  (** [header.Header.Get("Content-Type")] *)
  HeaderContentType : string;
  (** the [time.Now()] stored as [UploadTime] *)
  time_Now_upload : Z;
  (** the [time.Now()] from which [ExpiryTime] is computed *)
  time_Now_expiry : Z;
  (** [performConversion(fileBytes, header.Filename, targetFormat)]: the
      converted bytes and file name, or [None] for its error *)
  performConversion : list byte -> string -> string -> option (list byte * string);
  (** what [os.WriteFile] does *)
  os_WriteFile : writeOutcome
}.

Section Store.

(** [filepath.Join] of Go's library, on two elements. *)
Variable filepath_Join : string -> string -> string.

(** *** AddFile (main.go, lines 95-159) *)

(** Lines 111-120: the metadata literal. *)
Definition newMeta (env : AddEnv) (fileID : string) (fileSize : Z) : FileMetadata :=
  {| ID := fileID;
     OriginalName := Filename env;
     ConvertedName := Filename env;
     Size := fileSize;
     UploadTime := time_Now_upload env;
     ExpiryTime := time_Add (time_Now_expiry env) fileExpiryDuration;
     IsInMemory := false;
     Path := "";
     ContentType := HeaderContentType env |}.

(** Lines 122-136: the conversion step. It yields the metadata, the value
    of the local [fileSize] and the value of [fileBytes] that the placement
    below works with; [None] is the "conversion failed" return. *)
Definition convertStep (env : AddEnv) (targetFormat : string)
    (meta : FileMetadata) (fileSize : Z) (fileBytes : list byte)
  : option (FileMetadata * Z * list byte) :=
  if decide (targetFormat = "") then Some (meta, fileSize, fileBytes)
  else
    match performConversion env fileBytes (Filename env) targetFormat with
    | None => None
    | Some (convertedBytes, convertedFileName) =>
        Some (set_ContentType (getContentTypeForExtension targetFormat)
                (set_ConvertedName convertedFileName meta),
              len64 convertedBytes,
              convertedBytes)
    end.

(** Lines 138-158: placement and registration. *)
Definition placeStep (env : AddEnv) (fileID : string) (meta : FileMetadata)
    (fileSize : Z) (fileBytes : list byte) (fs : FileStore) (d : Disk)
  : result FileMetadata * FileStore * Disk :=
  if int64_add (currentRAMUsage fs) fileSize <=? ramLimitBytes then
    let fs := set_ramStore (<[fileID := fileBytes]> (ramStore fs)) fs in
    let fs := set_currentRAMUsage (int64_add (currentRAMUsage fs) fileSize) fs in
    let meta := set_IsInMemory true meta in
    (Ok meta, set_files (<[fileID := meta]> (files fs)) fs, d)
  else
    let diskFilePath :=
      filepath_Join (diskPath fs) (fileID +:+ "_" +:+ ConvertedName meta) in
    match os_WriteFile env with
    | WriteDone =>
        let meta := set_Path diskFilePath (set_IsInMemory false meta) in
        (Ok meta, set_files (<[fileID := meta]> (files fs)) fs,
         <[diskFilePath := fileBytes]> d)
    | WriteFailed leftover =>
        (Err ErrWriteDisk, fs, failedWrite diskFilePath leftover d)
    end.

Definition AddFile (env : AddEnv) (targetFormat : string)
    (fs : FileStore) (d : Disk) : result FileMetadata * FileStore * Disk :=
  match generateID (rand_Read env) with
  | None => (Err ErrGenerateID, fs, d)
  | Some fileID =>
      match io_ReadAll env with
      | None => (Err ErrReadContent, fs, d)
      | Some fileBytes =>
          let fileSize := len64 fileBytes in
          let meta := newMeta env fileID fileSize in
          match convertStep env targetFormat meta fileSize fileBytes with
          | None => (Err ErrConversion, fs, d)
          | Some (meta, fileSize, fileBytes) =>
              placeStep env fileID meta fileSize fileBytes fs d
          end
      end
  end.

(** *** deleteFileInternal (main.go, lines 274-294)

    [os.Remove] takes the path off the disk. Its error, which the code
    only logs, is the case of a path that is not there: nothing changes. *)
Definition deleteFileInternal (fileID : string) (fs : FileStore) (d : Disk)
  : FileStore * Disk :=
  match files fs !! fileID with
  | None => (fs, d)
  | Some meta =>
      let '(fs, d) :=
        if IsInMemory meta then
          match ramStore fs !! fileID with
          | Some data =>
              (set_ramStore (delete fileID (ramStore fs))
                 (set_currentRAMUsage
                    (int64_sub (currentRAMUsage fs) (len64 data)) fs), d)
          | None => (fs, d)
          end
        else (fs, delete (Path meta) d) in
      (set_files (delete fileID (files fs)) fs, d)
  end.

(** *** GetFile (main.go, lines 245-272)

    [now] is the reading of [time.Now()]; [os.ReadFile] is the lookup of
    the path on the disk. *)
Definition GetFile (now : Z) (fileID : string) (fs : FileStore) (d : Disk)
  : result (FileMetadata * list byte) * FileStore * Disk :=
  match files fs !! fileID with
  | None => (Err ErrNotFoundOrExpired, fs, d)
  | Some meta =>
      if time_After now (ExpiryTime meta) then
        let '(fs, d) := deleteFileInternal fileID fs d in
        (Err ErrNotFoundOrExpired, fs, d)
      else if IsInMemory meta then
        match ramStore fs !! fileID with
        | None => (Err ErrInconsistency, fs, d)
        | Some content => (Ok (meta, content), fs, d)
        end
      else
        match d !! Path meta with
        | None => (Err ErrReadDisk, fs, d)
        | Some content => (Ok (meta, content), fs, d)
        end
  end.

(** *** cleanupRoutine (main.go, lines 296-312)

    One tick of the ticker. [entries] is the sequence in which
    [range fs.files] yields the records: Go leaves the order open, so it is
    an input. The body removes only the record it is looking at, hence no
    record yielded later has been removed in the meantime. *)
Definition cleanupBody (now : Z) (acc : FileStore * Disk)
    (entry : string * FileMetadata) : FileStore * Disk :=
  if time_After now (ExpiryTime entry.2)
  then deleteFileInternal entry.1 acc.1 acc.2
  else acc.

Definition cleanupOver (now : Z) (entries : list (string * FileMetadata))
    (fs : FileStore) (d : Disk) : FileStore * Disk :=
  foldl (cleanupBody now) (fs, d) entries.

Definition cleanupTick (now : Z) (fs : FileStore) (d : Disk) : FileStore * Disk :=
  cleanupOver now (map_to_list (files fs)) fs d.

End Store.

(** ** What the claims are stated with *)

(** A byte slice the usage counter can account for: its length added to a
    counter within the budget stays an [int64]. Every slice a Go process
    can hold is far shorter (the runtime addresses at most 2^48 bytes). *)
Definition sliceLenOk (b : list byte) : Prop :=
  len64 b <= maxInt64 - ramLimitBytes.

(** The bytes held by the content table. *)
Definition ramBytes (rs : gmap string (list byte)) : Z :=
  map_fold (λ _ data acc, len64 data + acc) 0 rs.

(** The sum of [meta.Size] over the records with [IsInMemory]. *)
Definition memorySizes (fm : gmap string FileMetadata) : Z :=
  map_fold (λ _ meta acc, if IsInMemory meta then Size meta + acc else acc) 0 fm.

(** The consistency the comment in [GetFile] refers to ("should not happen
    if metadata is consistent"), with the counter measured on the contents. *)
Record consistent (fs : FileStore) : Prop := mkConsistent {
  cons_key : ∀ id meta, files fs !! id = Some meta → ID meta = id;
  cons_entry : ∀ id meta,
    files fs !! id = Some meta → IsInMemory meta = true →
    is_Some (ramStore fs !! id);
  cons_record : ∀ id data,
    ramStore fs !! id = Some data →
    ∃ meta, files fs !! id = Some meta ∧ IsInMemory meta = true;
  cons_usage : currentRAMUsage fs = ramBytes (ramStore fs);
  cons_budget : 0 <= currentRAMUsage fs <= ramLimitBytes
}.

(** Every [meta.Size] of a memory record is the length of its content. *)
Definition sizesMatch (fs : FileStore) : Prop :=
  ∀ id meta data,
    files fs !! id = Some meta → ramStore fs !! id = Some data →
    Size meta = len64 data.

(** A call of [AddFile] as the running program makes it: the identifier
    drawn is not in use (128 random bits), and the slices involved are
    slices a Go process can hold. *)
Definition admissible (env : AddEnv) (targetFormat : string) (fs : FileStore) : Prop :=
  (∀ id, generateID (rand_Read env) = Some id → files fs !! id = None) ∧
  (∀ raw, io_ReadAll env = Some raw →
     sliceLenOk raw ∧
     ∀ conv name,
       performConversion env raw (Filename env) targetFormat = Some (conv, name) →
       sliceLenOk conv).

(** The conversion of this call, if there is one, keeps the length of the
    bytes. *)
Definition lengthPreserving (env : AddEnv) (targetFormat : string) : Prop :=
  targetFormat ≠ "" →
  ∀ raw conv name,
    io_ReadAll env = Some raw →
    performConversion env raw (Filename env) targetFormat = Some (conv, name) →
    length conv = length raw.

Section Reachability.

Variable filepath_Join : string -> string -> string.

(** The states of a store and its disk: a fresh store over any disk, then
    any sequence of [AddFile], [GetFile], [deleteFileInternal] and sweeps.
    [P] restricts the [AddFile] calls further. *)
Inductive reachableWith (P : AddEnv → string → Prop) : FileStore → Disk → Prop :=
| reach_new mkdir1 mkdir2 path fs d :
    NewFileStore mkdir1 mkdir2 path = Some fs →
    reachableWith P fs d
| reach_AddFile env targetFormat fs d r fs' d' :
    reachableWith P fs d →
    admissible env targetFormat fs →
    P env targetFormat →
    AddFile filepath_Join env targetFormat fs d = (r, fs', d') →
    reachableWith P fs' d'
| reach_GetFile now id fs d r fs' d' :
    reachableWith P fs d →
    GetFile now id fs d = (r, fs', d') →
    reachableWith P fs' d'
| reach_delete id fs d fs' d' :
    reachableWith P fs d →
    deleteFileInternal id fs d = (fs', d') →
    reachableWith P fs' d'
| reach_cleanup now entries fs d fs' d' :
    reachableWith P fs d →
    entries ≡ₚ map_to_list (files fs) →
    cleanupOver now entries fs d = (fs', d') →
    reachableWith P fs' d'.

Definition reachable : FileStore → Disk → Prop :=
  reachableWith (λ _ _, True).

End Reachability.

(** ** Concrete inputs used by the examples *)

(** [filepath.Join] on a clean directory and a file name without
    separator. *)
Definition unix_join (dir name : string) : string := dir +:+ "/" +:+ name.

Definition bytes_of (s : string) : list byte := list_byte_of_string s.

(** The store [NewFileStore("")] returns. *)
Definition fs0 : FileStore := mkFileStore ∅ ∅ 0 defaultDiskPath.

Definition rand16 : list byte :=
  [x3a; x91; x0c; xe4; x57; xb2; x68; x1f; xd0; x4b; xa6; x23; x9e; x75; xc8; x0d]%byte.

Definition id16 : string := "3a910ce457b2681fd04ba6239e75c80d".

Definition rand16b : list byte :=
  [x7f; x02; xb9; x4d; xe1; x36; x8a; xc5; x10; x9b; x64; xf8; x2e; xd3; x47; xa0]%byte.

Definition id16b : string := "7f02b94de1368ac5109b64f82ed347a0".

(** What the Markdown conversion of part_000 (convertMarkdown, target
    "html") returns for the two bytes "hi" uploaded as a.md. *)
Definition html_of_hi : string :=
  String.concat (String "010"%char EmptyString)
    ["<html><body>"; "<p>hi</p>"; "</body></html>"].

Definition convert_hi (raw : list byte) (name target : string)
  : option (list byte * string) :=
  Some (bytes_of html_of_hi, "a.html").

(** Upload of a.md with content "hi"; the clock advances by 40 ns between
    the two readings. *)
Definition env_md : AddEnv :=
  {| rand_Read := Some rand16;
     io_ReadAll := Some (bytes_of "hi");
     Filename := "a.md";
     HeaderContentType := "text/markdown";
     time_Now_upload := 1000;
     time_Now_expiry := 1040;
     performConversion := convert_hi;
     os_WriteFile := WriteDone |}.

(** A payload one byte larger than the memory budget. *)
Definition bigPayload : list byte :=
  replicate (Z.to_nat (ramLimitBytes + 1)) x00%byte.

Definition env_big (name : string) : AddEnv :=
  {| rand_Read := Some rand16;
     io_ReadAll := Some bigPayload;
     Filename := name;
     HeaderContentType := "application/octet-stream";
     time_Now_upload := 1000;
     time_Now_expiry := 1040;
     performConversion := λ _ _ _, None;
     os_WriteFile := WriteDone |}.

(** The same upload when the disk write fails after truncating the file. *)
Definition env_big_failing (name : string) : AddEnv :=
  {| rand_Read := Some rand16b;
     io_ReadAll := Some bigPayload;
     Filename := name;
     HeaderContentType := "application/octet-stream";
     time_Now_upload := 1000;
     time_Now_expiry := 1040;
     performConversion := λ _ _ _, None;
     os_WriteFile := WriteFailed (Some []) |}.

Definition meta_big (name : string) : FileMetadata :=
  {| ID := id16;
     OriginalName := name;
     ConvertedName := name;
     Size := ramLimitBytes + 1;
     UploadTime := 1000;
     ExpiryTime := 1040 + fileExpiryDuration;
     IsInMemory := false;
     Path := unix_join defaultDiskPath (id16 +:+ "_" +:+ name);
     ContentType := "application/octet-stream" |}.

Definition fs_big (name : string) : FileStore :=
  mkFileStore (<[id16 := meta_big name]> ∅) ∅ 0 defaultDiskPath.

Definition disk_big (name : string) : Disk :=
  <[Path (meta_big name) := bigPayload]> ∅.

(** The store after the upload [env_md] with target format "html". *)
Definition meta_md : FileMetadata :=
  {| ID := id16;
     OriginalName := "a.md";
     ConvertedName := "a.html";
     Size := 2;
     UploadTime := 1000;
     ExpiryTime := 1040 + fileExpiryDuration;
     IsInMemory := true;
     Path := "";
     ContentType := "text/html" |}.

Definition fs_md : FileStore :=
  mkFileStore (<[id16 := meta_md]> ∅) (<[id16 := bytes_of html_of_hi]> ∅) 37
    defaultDiskPath.

(** The store after the upload [env_md] without target format. *)
Definition meta_plain : FileMetadata :=
  {| ID := id16;
     OriginalName := "a.md";
     ConvertedName := "a.md";
     Size := 2;
     UploadTime := 1000;
     ExpiryTime := 1040 + fileExpiryDuration;
     IsInMemory := true;
     Path := "";
     ContentType := "text/markdown" |}.

Definition fs_plain : FileStore :=
  mkFileStore (<[id16 := meta_plain]> ∅) (<[id16 := bytes_of "hi"]> ∅) 2
    defaultDiskPath.

(** ** Evolution of a store that holds a given record *)

(** A call in which [rand.Read] filled the whole 16-byte buffer of
    [generateID], as it does whenever it returns no error. *)
Definition sixteenBytes (env : AddEnv) (targetFormat : string) : Prop :=
  ∀ b, rand_Read env = Some b → length b = 16%nat.

(** Every key of the metadata table has the 32 characters of an identifier. *)
Definition idsWellFormed (fs : FileStore) : Prop :=
  ∀ id meta, files fs !! id = Some meta → String.length id = 32%nat.

(** The bytes a record stands for, where [GetFile] looks for them. *)
Definition contentOf (fs : FileStore) (d : Disk) (id : string)
    (meta : FileMetadata) : option (list byte) :=
  if IsInMemory meta then ramStore fs !! id else d !! Path meta.

Section Evolution.

Variable filepath_Join : string -> string -> string.

(** Every disk record points at the path [AddFile] computes for it. *)
Definition pathsCanonical (fs : FileStore) : Prop :=
  ∀ id meta, files fs !! id = Some meta → IsInMemory meta = false →
    Path meta = filepath_Join (diskPath fs) (id +:+ "_" +:+ ConvertedName meta).


(** What may happen to a store while the record [keep] is alive: any
    upload, any read and any sweep at a time not after [deadline], and the
    deletion of any other record. *)
Inductive evolvesUntil (keep : string) (deadline : Z)
  : FileStore * Disk → FileStore * Disk → Prop :=
| evolve_refl s : evolvesUntil keep deadline s s
| evolve_AddFile env targetFormat s fs d r fs' d' :
    evolvesUntil keep deadline s (fs, d) →
    admissible env targetFormat fs →
    sixteenBytes env targetFormat →
    AddFile filepath_Join env targetFormat fs d = (r, fs', d') →
    evolvesUntil keep deadline s (fs', d')
| evolve_GetFile now id s fs d r fs' d' :
    evolvesUntil keep deadline s (fs, d) →
    now <= deadline →
    GetFile now id fs d = (r, fs', d') →
    evolvesUntil keep deadline s (fs', d')
| evolve_delete id s fs d fs' d' :
    evolvesUntil keep deadline s (fs, d) →
    id ≠ keep →
    deleteFileInternal id fs d = (fs', d') →
    evolvesUntil keep deadline s (fs', d')
| evolve_cleanup now entries s fs d fs' d' :
    evolvesUntil keep deadline s (fs, d) →
    now <= deadline →
    entries ≡ₚ map_to_list (files fs) →
    cleanupOver now entries fs d = (fs', d') →
    evolvesUntil keep deadline s (fs', d').

End Evolution.

Section StoreOK.

Variable filepath_Join : string -> string -> string.

(** What the proofs about evolutions carry along. *)
Definition storeOK (fs : FileStore) : Prop :=
  consistent fs ∧ idsWellFormed fs ∧ pathsCanonical filepath_Join fs.

(** The record [meta] is in the table under [id] and stands for [x]. *)
Definition holds (id : string) (meta : FileMetadata) (x : list byte)
    (s : FileStore * Disk) : Prop :=
  files s.1 !! id = Some meta ∧ contentOf s.1 s.2 id meta = Some x.

End StoreOK.

(** * Format detection and conversion (src/unnamed/part_000)

    The functions of Go's library that the code calls on strings and paths
    are written out as the library defines them on Unix; a Go string is
    its sequence of bytes, which is what a [string] is here.
    [strings.ToLower] and [http.DetectContentType] stay parameters. *)

Definition newline : string := String "010"%char EmptyString.

(** [strings.HasPrefix(s, prefix)] and [strings.HasSuffix(s, suffix)]. *)
Definition strings_HasPrefix (s prefix : string) : bool := String.prefix prefix s.

Definition strings_HasSuffix (s suffix : string) : bool :=
  (String.length suffix <=? String.length s)%nat &&
  String.eqb
    (String.substring (String.length s - String.length suffix)
       (String.length suffix) s)
    suffix.

(** [s[n:]] for [n] within the length of [s]. *)
Fixpoint string_drop (n : nat) (s : string) : string :=
  match n, s with
  | O, _ => s
  | S n, String _ rest => string_drop n rest
  | S _, EmptyString => EmptyString
  end.

(** [strings.TrimSuffix(s, suffix)]. *)
Definition strings_TrimSuffix (s suffix : string) : string :=
  if strings_HasSuffix s suffix
  then String.substring 0 (String.length s - String.length suffix) s
  else s.

(** [strings.Split(s, "\n")]: the pieces between the newlines, one more
    than there are newlines. *)
Fixpoint strings_Split_newline (s : string) : list string :=
  match s with
  | EmptyString => [EmptyString]
  | String c rest =>
      if Ascii.eqb c "010"%char then EmptyString :: strings_Split_newline rest
      else
        match strings_Split_newline rest with
        | piece :: pieces => String c piece :: pieces
        | [] => [String c EmptyString]
        end
  end.

(** The loop of [filepath.Ext]: from the end of the path backwards, up to
    the first separator; [suffix] is the part already passed. *)
Fixpoint ext_loop (backwards : list ascii) (suffix : string) : string :=
  match backwards with
  | [] => EmptyString
  | c :: before =>
      if Ascii.eqb c "/"%char then EmptyString
      else if Ascii.eqb c "."%char then String c suffix
      else ext_loop before (String c suffix)
  end.

Definition filepath_Ext (path : string) : string :=
  ext_loop (rev (list_ascii_of_string path)) EmptyString.

(** [filepath.Base]: trailing separators are dropped, then the last
    element is taken; "." for the empty path, "/" for separators only. *)
Definition isSeparator (c : ascii) : bool := Ascii.eqb c "/"%char.

Fixpoint dropSeparators (backwards : list ascii) : list ascii :=
  match backwards with
  | c :: before => if isSeparator c then dropSeparators before else backwards
  | [] => []
  end.

Fixpoint lastElement (backwards : list ascii) (suffix : string) : string :=
  match backwards with
  | c :: before => if isSeparator c then suffix else lastElement before (String c suffix)
  | [] => suffix
  end.

Definition filepath_Base (path : string) : string :=
  if decide (path = EmptyString) then "."
  else
    match dropSeparators (rev (list_ascii_of_string path)) with
    | [] => "/"
    | stripped => lastElement stripped EmptyString
    end.

(** ** FileType and ConversionMap (part_000, lines 21-78) *)

Inductive FileType :=
| FileTypeImage
| FileTypeAudio
| FileTypeVideo
| FileTypeDoc
| FileTypeArchive
| FileTypeOther.

#[global] Instance FileType_eq_dec : EqDecision FileType.
Proof. solve_decision. Defined.

Definition ConversionMap : list (FileType * list (string * list string)) :=
  [ (FileTypeImage,
     [ ("jpg", ["png"; "gif"; "webp"; "bmp"; "tiff"]);
       ("jpeg", ["png"; "gif"; "webp"; "bmp"; "tiff"]);
       ("png", ["jpg"; "gif"; "webp"; "bmp"; "tiff"]);
       ("gif", ["jpg"; "png"; "webp"; "bmp"; "tiff"]);
       ("webp", ["jpg"; "png"; "gif"; "bmp"; "tiff"]);
       ("bmp", ["jpg"; "png"; "gif"; "webp"; "tiff"]);
       ("tiff", ["jpg"; "png"; "gif"; "webp"; "bmp"]);
       ("svg", ["png"; "jpg"]) ]);
    (FileTypeAudio,
     [ ("mp3", ["wav"; "ogg"; "flac"; "aac"; "wma"]);
       ("wav", ["mp3"; "ogg"; "flac"; "aac"; "wma"]);
       ("ogg", ["mp3"; "wav"; "flac"; "aac"; "wma"]);
       ("flac", ["mp3"; "wav"; "ogg"; "aac"; "wma"]);
       ("aac", ["mp3"; "wav"; "ogg"; "flac"; "wma"]);
       ("wma", ["mp3"; "wav"; "ogg"; "flac"; "aac"]) ]);
    (FileTypeVideo,
     [ ("mp4", ["avi"; "mov"; "webm"; "mkv"; "flv"; "mp3"; "wav"; "ogg"; "flac"; "aac"]);
       ("avi", ["mp4"; "mov"; "webm"; "mkv"; "flv"; "mp3"; "wav"; "ogg"; "flac"; "aac"]);
       ("mov", ["mp4"; "avi"; "webm"; "mkv"; "flv"; "mp3"; "wav"; "ogg"; "flac"; "aac"]);
       ("webm", ["mp4"; "avi"; "mov"; "mkv"; "flv"; "mp3"; "wav"; "ogg"; "flac"; "aac"]);
       ("mkv", ["mp4"; "avi"; "mov"; "webm"; "flv"; "mp3"; "wav"; "ogg"; "flac"; "aac"]);
       ("flv", ["mp4"; "avi"; "mov"; "webm"; "mkv"; "mp3"; "wav"; "ogg"; "flac"; "aac"]) ]);
    (FileTypeDoc,
     [ ("docx", ["pdf"; "txt"; "html"; "md"]);
       ("doc", ["pdf"; "txt"; "html"; "md"]);
       ("pdf", ["txt"; "html"; "md"]);
       ("txt", ["pdf"; "html"; "md"]);
       ("html", ["pdf"; "txt"; "md"]);
       ("md", ["html"; "txt"; "pdf"]);
       ("pptx", ["pdf"]);
       ("ppt", ["pdf"]);
       ("xlsx", ["csv"; "pdf"]);
       ("xls", ["csv"; "pdf"]) ]);
    (FileTypeArchive,
     [ ("zip", ["tar"]);
       ("tar", ["zip"]);
       ("rar", ["zip"; "tar"]) ]) ].

(** The lookup of a key in a Go map written as a literal. *)
Fixpoint mapLookup {K V : Type} `{EqDecision K} (k : K) (m : list (K * V))
  : option V :=
  match m with
  | [] => None
  | (k', v) :: rest => if decide (k = k') then Some v else mapLookup k rest
  end.

(** GetSupportedConversionFormats (part_000, lines 126-134). *)
Definition GetSupportedConversionFormats (fileType : FileType)
    (extension : string) : list string :=
  match mapLookup fileType ConversionMap with
  | Some formatMap =>
      match mapLookup extension formatMap with
      | Some formats => formats
      | None => []
      end
  | None => []
  end.

(** The extension switch at the end of DetectFileType (lines 110-121). *)
Definition extensionTypes : list (string * FileType) :=
  [ ("jpg", FileTypeImage); ("jpeg", FileTypeImage); ("png", FileTypeImage);
    ("gif", FileTypeImage); ("webp", FileTypeImage); ("bmp", FileTypeImage);
    ("tiff", FileTypeImage); ("svg", FileTypeImage);
    ("mp3", FileTypeAudio); ("wav", FileTypeAudio); ("ogg", FileTypeAudio);
    ("flac", FileTypeAudio); ("aac", FileTypeAudio); ("wma", FileTypeAudio);
    ("mp4", FileTypeVideo); ("avi", FileTypeVideo); ("mov", FileTypeVideo);
    ("webm", FileTypeVideo); ("mkv", FileTypeVideo); ("flv", FileTypeVideo);
    ("pdf", FileTypeDoc); ("doc", FileTypeDoc); ("docx", FileTypeDoc);
    ("txt", FileTypeDoc); ("html", FileTypeDoc); ("md", FileTypeDoc);
    ("ppt", FileTypeDoc); ("pptx", FileTypeDoc); ("xls", FileTypeDoc);
    ("xlsx", FileTypeDoc); ("csv", FileTypeDoc);
    ("zip", FileTypeArchive); ("tar", FileTypeArchive); ("rar", FileTypeArchive) ].

Definition extensionType (ext : string) : FileType :=
  default FileTypeOther (mapLookup ext extensionTypes).

(** The result of a conversion function: the bytes and the file name, or
    one of the errors of part_000. *)
Inductive convError :=
| ErrNotSupported       (* "conversion from %s to %s is not supported" *)
| ErrUnsupportedType    (* "unsupported file type for conversion" *)
| ErrTempInput          (* "failed to write temporary input file: %w" *)
| ErrNoWkhtmltopdf      (* "PDF conversion requires wkhtmltopdf ..." *)
| ErrPDFFailed          (* "PDF conversion failed: %s - %w" *)
| ErrNotImplemented     (* "document conversion from %s to %s is not implemented yet" *)
| ErrReadConverted      (* "failed to read converted document: %w" *)
| ErrReadMarkdown       (* "failed to read markdown file: %w" *)
| ErrMarkdownTarget     (* "unsupported markdown conversion to %s" *)
| ErrWriteConverted     (* "failed to write converted file: %w" *)
| ErrReadConvertedFile  (* "failed to read converted file: %w" *)
| ErrNoFFmpeg           (* "FFmpeg is not installed or not in PATH" *)
| ErrFFmpegFailed       (* "FFmpeg conversion failed: %s - %w" *)
| ErrExternal.          (* an error of a converter that is not modelled *)

Inductive converted :=
| Converted (outputBytes : list byte) (outputFilename : string)
| ConvFailed (e : convError).

#[global] Instance convError_eq_dec : EqDecision convError.
Proof. solve_decision. Defined.

Section Detection.

Variable strings_ToLower : string -> string.
Variable http_DetectContentType : list byte -> string.

(** DetectFileType (part_000, lines 80-124). *)
Definition DetectFileType (fileBytes : list byte) (filename : string)
  : FileType * string :=
  let ext := strings_ToLower (filepath_Ext filename) in
  let ext := if decide (ext = EmptyString) then ext else string_drop 1 ext in
  let contentType := http_DetectContentType fileBytes in
  if strings_HasPrefix contentType "image/" then (FileTypeImage, ext)
  else if strings_HasPrefix contentType "audio/" then (FileTypeAudio, ext)
  else if strings_HasPrefix contentType "video/" then (FileTypeVideo, ext)
  else if strings_HasPrefix contentType "application/pdf"
       || strings_HasPrefix contentType "application/msword"
       || strings_HasPrefix contentType
            "application/vnd.openxmlformats-officedocument.wordprocessingml.document"
       || strings_HasPrefix contentType "text/"
  then (FileTypeDoc, ext)
  else if strings_HasPrefix contentType "application/zip"
       || strings_HasPrefix contentType "application/x-tar"
       || strings_HasPrefix contentType "application/x-rar-compressed"
  then (FileTypeArchive, ext)
  else (extensionType ext, ext).

(** The converters that run external programs and libraries: the image
    library (convertImage) and FFmpeg (convertMediaWithFFmpeg), and the
    document and archive converters as [performConversion] sees them. *)
Record Converters := mkConverters {
  (** convertImage(inputFileBytes, outputFilename, targetFormat) *)
  convertImage : list byte -> string -> string -> converted;
  (** convertMediaWithFFmpeg(inputFileBytes, outputFilename, sourceExt, _, mediaType) *)
  convertMediaWithFFmpeg : list byte -> string -> string -> string -> converted;
  (** convertDocument(inputFileBytes, outputFilename, sourceExt, targetFormat) *)
  convertDocumentWith : list byte -> string -> string -> string -> converted;
  (** convertArchive(inputFileBytes, outputFilename, sourceExt, targetFormat) *)
  convertArchive : list byte -> string -> string -> string -> converted
}.

(** convertAudio and convertVideo (part_000, lines 299-311). *)
Definition convertAudio (cv : Converters) (inputFileBytes : list byte)
    (outputFilename sourceExt targetFormat : string) : converted :=
  convertMediaWithFFmpeg cv inputFileBytes outputFilename sourceExt "audio".

Definition convertVideo (cv : Converters) (inputFileBytes : list byte)
    (outputFilename sourceExt targetFormat : string) : converted :=
  let mediaType :=
    if bool_decide (targetFormat = "mp3") || bool_decide (targetFormat = "wav")
       || bool_decide (targetFormat = "ogg") || bool_decide (targetFormat = "flac")
       || bool_decide (targetFormat = "aac")
    then "audio" else "video" in
  convertMediaWithFFmpeg cv inputFileBytes outputFilename sourceExt mediaType.

(** The loop of performConversion and of handleUpload over the supported
    formats: is [targetFormat] one of them. *)
Definition formatListed (targetFormat : string) (formats : list string) : bool :=
  existsb (λ format, String.eqb format targetFormat) formats.

(** performConversion (part_000, lines 136-180). *)
Definition performConversionWith (cv : Converters) (inputFileBytes : list byte)
    (originalFilename targetFormat : string) : converted :=
  let '(fileType, sourceExt) := DetectFileType inputFileBytes originalFilename in
  let baseName := strings_TrimSuffix originalFilename (filepath_Ext originalFilename) in
  let outputFilename := baseName +:+ "." +:+ targetFormat in
  let supported :=
    match mapLookup fileType ConversionMap with
    | Some formatMap =>
        match mapLookup sourceExt formatMap with
        | Some formats => formatListed targetFormat formats
        | None => false
        end
    | None => false
    end in
  if negb supported then ConvFailed ErrNotSupported
  else
    match fileType with
    | FileTypeImage => convertImage cv inputFileBytes outputFilename targetFormat
    | FileTypeAudio => convertAudio cv inputFileBytes outputFilename sourceExt targetFormat
    | FileTypeVideo => convertVideo cv inputFileBytes outputFilename sourceExt targetFormat
    | FileTypeDoc => convertDocumentWith cv inputFileBytes outputFilename sourceExt targetFormat
    | FileTypeArchive => convertArchive cv inputFileBytes outputFilename sourceExt targetFormat
    | FileTypeOther => ConvFailed ErrUnsupportedType
    end.

(** The check of handleUpload before it calls AddFile (main.go, lines
    340-371): [true] when the request goes on to AddFile. *)
Definition uploadValidated (fileBytes : list byte) (filename targetFormat : string)
  : bool :=
  if decide (targetFormat = EmptyString) then true
  else
    let '(fileType, sourceExt) := DetectFileType fileBytes filename in
    formatListed targetFormat (GetSupportedConversionFormats fileType sourceExt).

End Detection.

(** ** convertMarkdown and convertDocument (part_000, lines 372-483) *)

(** The body of the loop over the lines (lines 440-454): what one line of
    Markdown adds to [htmlContent]. *)
Definition renderLine (line : string) : string :=
  if strings_HasPrefix line "# "
  then "<h1>" +:+ string_drop 2 line +:+ "</h1>" +:+ newline
  else if strings_HasPrefix line "## "
  then "<h2>" +:+ string_drop 3 line +:+ "</h2>" +:+ newline
  else if strings_HasPrefix line "### "
  then "<h3>" +:+ string_drop 4 line +:+ "</h3>" +:+ newline
  else if strings_HasPrefix line "- "
  then "<li>" +:+ string_drop 2 line +:+ "</li>" +:+ newline
  else if decide (line = EmptyString) then "<br/>" +:+ newline
  else "<p>" +:+ line +:+ "</p>" +:+ newline.

(** Lines 437-457: the HTML written for the Markdown [mdContent]. *)
Definition markdownToHTML (mdContent : list byte) : list byte :=
  let htmlContent := "<html><body>" +:+ newline in
  let lines := strings_Split_newline (string_of_list_byte mdContent) in
  let htmlContent :=
    foldl (λ html line, html +:+ renderLine line) htmlContent lines in
  list_byte_of_string (htmlContent +:+ "</body></html>").

(** What the conversion of a document obtains from outside: the temporary
    directory, what the two [os.WriteFile] calls do, whether
    [exec.LookPath] finds wkhtmltopdf, and what running it does to the
    files (its success and the files afterwards). *)
Record TempEnv := mkTempEnv {
  os_TempDir : string;
  write_input : writeOutcome;
  write_output : writeOutcome;
  LookPath_wkhtmltopdf : bool;
  run_wkhtmltopdf : string -> string -> Disk -> bool * Disk
}.

(** convertMarkdown (lines 426-483), on the files [d]. *)
Definition convertMarkdown (env : TempEnv) (inputPath outputPath targetFormat : string)
    (d : Disk) : converted * Disk :=
  match d !! inputPath with
  | None => (ConvFailed ErrReadMarkdown, d)
  | Some mdContent =>
      let outputContent :=
        if decide (targetFormat = "html") then Some (markdownToHTML mdContent)
        else if decide (targetFormat = "txt") then Some mdContent
        else None in
      match outputContent with
      | None => (ConvFailed ErrMarkdownTarget, d)
      | Some outputContent =>
          match write_output env with
          | WriteFailed leftover =>
              (ConvFailed ErrWriteConverted, failedWrite outputPath leftover d)
          | WriteDone =>
              let d := <[outputPath := outputContent]> d in
              let d := delete inputPath d in
              match d !! outputPath with
              | None => (ConvFailed ErrReadConvertedFile, d)
              | Some outputBytes =>
                  (Converted outputBytes (filepath_Base outputPath), d)
              end
          end
      end
  end.

Section Documents.

Variable filepath_Join : string -> string -> string.

(** convertDocument (lines 372-424), on the files [d]. *)
Definition convertDocument (env : TempEnv) (inputFileBytes : list byte)
    (outputFilename sourceExt targetFormat : string) (d : Disk)
  : converted * Disk :=
  let tempInputPath := filepath_Join (os_TempDir env) ("input." +:+ sourceExt) in
  let tempOutputPath := filepath_Join (os_TempDir env) outputFilename in
  match write_input env with
  | WriteFailed leftover =>
      (ConvFailed ErrTempInput, failedWrite tempInputPath leftover d)
  | WriteDone =>
      let d := <[tempInputPath := inputFileBytes]> d in
      if bool_decide (sourceExt = "md")
         && (bool_decide (targetFormat = "html")
             || bool_decide (targetFormat = "txt"))
      then convertMarkdown env tempInputPath tempOutputPath targetFormat d
      else if bool_decide (sourceExt = "txt") && bool_decide (targetFormat = "pdf")
      then
        if negb (LookPath_wkhtmltopdf env)
        then (ConvFailed ErrNoWkhtmltopdf, delete tempInputPath d)
        else
          let '(ok, d) := run_wkhtmltopdf env tempInputPath tempOutputPath d in
          let d := delete tempInputPath d in
          if negb ok then (ConvFailed ErrPDFFailed, d)
          else
            match d !! tempOutputPath with
            | None => (ConvFailed ErrReadConverted, d)
            | Some outputBytes =>
                (Converted outputBytes outputFilename, delete tempOutputPath d)
            end
      else (ConvFailed ErrNotImplemented, delete tempInputPath d)
  end.

End Documents.

(** The document conversions convertDocument carries out. *)
Definition documentImplemented (sourceExt targetFormat : string) : Prop :=
  (sourceExt = "md" ∧ (targetFormat = "html" ∨ targetFormat = "txt")) ∨
  (sourceExt = "txt" ∧ targetFormat = "pdf").


(** ** convertMediaWithFFmpeg (part_000, lines 313-370) *)

Module FFmpeg.

(** What the conversion obtains from outside: whether [exec.LookPath]
    finds ffmpeg, the temporary directory, what [os.WriteFile] does with
    the input, and what running ffmpeg with the given arguments does to
    the files (its success and the files afterwards). *)
Record Env := mkEnv {
  LookPath_ffmpeg : bool;
  TempDir : string;
  write_input : writeOutcome;
  CombinedOutput : list string -> Disk -> bool * Disk
}.

(** Lines 331-349: the arguments of the ffmpeg command. *)
Definition arguments (mediaType sourceExt tempInputPath tempOutputPath : string)
  : list string :=
  if bool_decide (mediaType = "audio")
     && (strings_HasPrefix sourceExt "mp4"
         || strings_HasPrefix sourceExt "avi"
         || strings_HasPrefix sourceExt "mov"
         || strings_HasPrefix sourceExt "webm"
         || strings_HasPrefix sourceExt "mkv"
         || strings_HasPrefix sourceExt "flv")
  then ["-i"; tempInputPath; "-vn"; "-acodec"; "copy"; tempOutputPath]
  else if bool_decide (mediaType = "audio")
  then ["-i"; tempInputPath; "-ab"; "192k"; tempOutputPath]
  else ["-i"; tempInputPath; "-s"; "1280x720"; tempOutputPath].

(** convertMediaWithFFmpeg, on the files [d]. *)
Definition convertMediaWithFFmpeg (filepath_Join : string -> string -> string)
    (env : Env) (inputFileBytes : list byte)
    (outputFilename sourceExt mediaType : string) (d : Disk)
  : converted * Disk :=
  if negb (LookPath_ffmpeg env) then (ConvFailed ErrNoFFmpeg, d)
  else
    let tempInputPath := filepath_Join (TempDir env) ("input." +:+ sourceExt) in
    let tempOutputPath := filepath_Join (TempDir env) outputFilename in
    match write_input env with
    | WriteFailed leftover =>
        (ConvFailed ErrTempInput, failedWrite tempInputPath leftover d)
    | WriteDone =>
        let d := <[tempInputPath := inputFileBytes]> d in
        let '(ok, d) :=
          CombinedOutput env
            (arguments mediaType sourceExt tempInputPath tempOutputPath) d in
        if negb ok then (ConvFailed ErrFFmpegFailed, d)
        else
          match d !! tempOutputPath with
          | None => (ConvFailed ErrReadConvertedFile, d)
          | Some outputBytes =>
              (Converted outputBytes outputFilename,
               delete tempOutputPath (delete tempInputPath d))
          end
    end.

(** The converters with FFmpeg run on the files [d]; the other converters
    are not run. *)
Definition converters (filepath_Join : string -> string -> string)
    (env : Env) (d : Disk) : Converters :=
  mkConverters
    (λ _ _ _, ConvFailed ErrExternal)
    (λ b out ext mediaType,
       (convertMediaWithFFmpeg filepath_Join env b out ext mediaType d).1)
    (λ _ _ _ _, ConvFailed ErrExternal)
    (λ _ _ _ _, ConvFailed ErrExternal).

End FFmpeg.
(** * The HTTP handlers (main.go, lines 314-421) *)

(** What handleUpload reads from the request: the method, whether the
    form parses and holds the file, the form value targetFormat, the
    [io.ReadAll] of the validation, and the file with its header as
    [AddFile] gets them. *)
Record UploadRequest := mkUploadRequest {
  Method : string;
  ParseMultipartForm_ok : bool;
  FormFile_ok : bool;
  FormValue_targetFormat : string;
  validation_ReadAll : option (list byte);
  upload : AddEnv
}.

(** The answer of handleUpload: an [http.Error] with its status code, or
    the JSON object with its three members. *)
Inductive uploadResponse :=
| UploadError (status : Z)
| UploadJSON (fileId fileName downloadUrl : string).





Section Upload.

Variable strings_ToLower : string -> string.
Variable http_DetectContentType : list byte -> string.
Variable filepath_Join : string -> string -> string.

(** Lines 373-391: the call of AddFile and the answer. *)
Definition uploadStore (req : UploadRequest) (fs : FileStore) (d : Disk)
  : uploadResponse * FileStore * Disk :=
  match AddFile filepath_Join (upload req) (FormValue_targetFormat req) fs d with
  | (Err _, fs, d) => (UploadError 500, fs, d)
  | (Ok meta, fs, d) =>
      (UploadJSON (ID meta) (ConvertedName meta) ("/download/" +:+ ID meta), fs, d)
  end.

(** handleUpload (lines 314-392). *)
Definition handleUpload (req : UploadRequest) (fs : FileStore) (d : Disk)
  : uploadResponse * FileStore * Disk :=
  if negb (String.eqb (Method req) "POST") then (UploadError 405, fs, d)
  else if negb (ParseMultipartForm_ok req) then (UploadError 400, fs, d)
  else if negb (FormFile_ok req) then (UploadError 400, fs, d)
  else if decide (FormValue_targetFormat req = EmptyString)
  then uploadStore req fs d
  else
    match validation_ReadAll req with
    | None => (UploadError 400, fs, d)
    | Some tempFile =>
        if uploadValidated strings_ToLower http_DetectContentType tempFile
             (Filename (upload req)) (FormValue_targetFormat req)
        then uploadStore req fs d
        else (UploadError 400, fs, d)
    end.

End Upload.

(** ** Concrete inputs for the conversions and the handlers *)

(** [strings.ToLower] on a name that is in lower case already. *)
Definition lower_case_already (s : string) : string := s.

(** [http.DetectContentType] on a short plain text. *)
Definition detect_plain_text (b : list byte) : string := "text/plain; charset=utf-8".

(** A temporary directory in which files can be written; wkhtmltopdf is
    not installed. *)
Definition tmp_env : TempEnv :=
  {| os_TempDir := "/tmp";
     write_input := WriteDone;
     write_output := WriteDone;
     LookPath_wkhtmltopdf := false;
     run_wkhtmltopdf := λ _ _ d, (false, d) |}.

(** The document converter of the model over an empty temporary
    directory; the other converters are not run. *)
Definition converters_doc : Converters :=
  {| convertImage := λ _ _ _, ConvFailed ErrExternal;
     convertMediaWithFFmpeg := λ _ _ _ _, ConvFailed ErrExternal;
     convertDocumentWith := λ b out ext target,
       (convertDocument unix_join tmp_env b out ext target ∅).1;
     convertArchive := λ _ _ _ _, ConvFailed ErrExternal |}.

(** The two results of [performConversion] as [AddFile] uses them. *)
Definition convertedOption (c : converted) : option (list byte * string) :=
  match c with
  | Converted outputBytes outputFilename => Some (outputBytes, outputFilename)
  | ConvFailed _ => None
  end.

(** The upload [env_md] with the conversion carried out by the model. *)
Definition env_md_converted : AddEnv :=
  {| rand_Read := Some rand16;
     io_ReadAll := Some (bytes_of "hi");
     Filename := "a.md";
     HeaderContentType := "text/markdown";
     time_Now_upload := 1000;
     time_Now_expiry := 1040;
     performConversion := λ b name target,
       convertedOption
         (performConversionWith lower_case_already detect_plain_text
            converters_doc b name target);
     os_WriteFile := WriteDone |}.

(** The request that uploads a.md with content "hi" to be converted to
    html, and the same upload without target format. *)
Definition req_md : UploadRequest :=
  {| Method := "POST";
     ParseMultipartForm_ok := true;
     FormFile_ok := true;
     FormValue_targetFormat := "html";
     validation_ReadAll := Some (bytes_of "hi");
     upload := env_md_converted |}.


(** A request with the wrong method. *)
Definition req_get : UploadRequest :=
  {| Method := "GET";
     ParseMultipartForm_ok := true;
     FormFile_ok := true;
     FormValue_targetFormat := "";
     validation_ReadAll := None;
     upload := env_md |}.


(** A machine on which ffmpeg is installed and fails on its input,
    leaving the files as they are. *)
Definition ffmpeg_failing : FFmpeg.Env :=
  {| FFmpeg.LookPath_ffmpeg := true;
     FFmpeg.TempDir := "/tmp";
     FFmpeg.write_input := WriteDone;
     FFmpeg.CombinedOutput := λ _ d, (false, d) |}.
(** * Facts about the operations *)

(** ** Arithmetic of the counter *)

Lemma int64_wrap_id z : minInt64 <= z <= maxInt64 → int64_wrap z = z.
Proof.
  unfold minInt64, maxInt64, int64_wrap. intros Hz.
  rewrite Z.mod_small; lia.
Qed.

Lemma len64_nonneg b : 0 <= len64 b.
Proof. unfold len64. lia. Qed.

Lemma int64_add_budget u s :
  0 <= u <= ramLimitBytes → 0 <= s <= maxInt64 - ramLimitBytes →
  int64_add u s = u + s.
Proof.
  intros Hu Hs. unfold int64_add. apply int64_wrap_id.
  unfold minInt64, maxInt64, ramLimitBytes in *. lia.
Qed.

Lemma int64_sub_budget u s :
  0 <= s <= u → u <= ramLimitBytes → int64_sub u s = u - s.
Proof.
  intros Hs Hu. unfold int64_sub. apply int64_wrap_id.
  unfold minInt64, maxInt64, ramLimitBytes in *. lia.
Qed.

(** ** The two sums *)

Lemma ramBytes_empty : ramBytes ∅ = 0.
Proof. unfold ramBytes. by rewrite map_fold_empty. Qed.

Lemma ramBytes_insert id data (rs : gmap string (list byte)) :
  rs !! id = None → ramBytes (<[id := data]> rs) = len64 data + ramBytes rs.
Proof.
  intros Hid. unfold ramBytes.
  rewrite map_fold_insert_L; [done | intros; lia | done].
Qed.

Lemma ramBytes_delete id data (rs : gmap string (list byte)) :
  rs !! id = Some data → ramBytes rs = len64 data + ramBytes (delete id rs).
Proof.
  intros Hid. unfold ramBytes.
  by rewrite (map_fold_delete_L _ _ id data rs); [| intros; lia |].
Qed.

Lemma ramBytes_nonneg (rs : gmap string (list byte)) : 0 <= ramBytes rs.
Proof.
  induction rs as [|id data rs Hid IH] using map_ind.
  - by rewrite ramBytes_empty.
  - rewrite ramBytes_insert by done. pose proof (len64_nonneg data). lia.
Qed.

Lemma memorySizes_empty : memorySizes ∅ = 0.
Proof. unfold memorySizes. by rewrite map_fold_empty. Qed.

Lemma memorySizes_insert id meta (fm : gmap string FileMetadata) :
  fm !! id = None →
  memorySizes (<[id := meta]> fm) =
    if IsInMemory meta then Size meta + memorySizes fm else memorySizes fm.
Proof.
  intros Hid. unfold memorySizes.
  rewrite map_fold_insert_L; [done | | done].
  intros j1 j2 m1 m2 y _ _ _. destruct (IsInMemory m1), (IsInMemory m2); lia.
Qed.

(** ** The steps of AddFile *)

Lemma convertStep_none env meta s raw :
  convertStep env "" meta s raw = Some (meta, s, raw).
Proof. unfold convertStep. by rewrite decide_True. Qed.

Lemma convertStep_some env tf meta s raw meta' s' stored :
  convertStep env tf meta s raw = Some (meta', s', stored) →
  (tf = "" ∧ meta' = meta ∧ s' = s ∧ stored = raw) ∨
  (tf ≠ "" ∧ ∃ name,
     performConversion env raw (Filename env) tf = Some (stored, name) ∧
     meta' = set_ContentType (getContentTypeForExtension tf)
               (set_ConvertedName name meta) ∧
     s' = len64 stored).
Proof.
  unfold convertStep. case_decide as Htf.
  - intros [= <- <- <-]. by left.
  - destruct (performConversion env raw (Filename env) tf) as [[conv name]|];
      [|done].
    intros [= <- <- <-]. right. eauto.
Qed.

(** After the conversion step the local [fileSize] is the length of the
    bytes about to be stored, while the fields set by the literal, [Size]
    among them, are those of the literal. *)
Lemma convertStep_fields env tf meta raw meta' s' stored :
  convertStep env tf meta (len64 raw) raw = Some (meta', s', stored) →
  s' = len64 stored ∧ ID meta' = ID meta ∧ Size meta' = Size meta ∧
  UploadTime meta' = UploadTime meta ∧ ExpiryTime meta' = ExpiryTime meta ∧
  IsInMemory meta' = IsInMemory meta.
Proof.
  intros H. apply convertStep_some in H as [(_ & -> & -> & ->)|(_ & name & _ & -> & ->)];
    done.
Qed.

(** ** deleteFileInternal, case by case *)

Lemma deleteFileInternal_absent id fs d :
  files fs !! id = None → deleteFileInternal id fs d = (fs, d).
Proof. intros H. unfold deleteFileInternal. by rewrite H. Qed.

Lemma deleteFileInternal_ram id fs d meta data :
  files fs !! id = Some meta → IsInMemory meta = true →
  ramStore fs !! id = Some data →
  deleteFileInternal id fs d =
    (mkFileStore (delete id (files fs)) (delete id (ramStore fs))
       (int64_sub (currentRAMUsage fs) (len64 data)) (diskPath fs), d).
Proof. intros H1 H2 H3. unfold deleteFileInternal. by rewrite H1, H2, H3. Qed.

Lemma deleteFileInternal_ram_missing id fs d meta :
  files fs !! id = Some meta → IsInMemory meta = true →
  ramStore fs !! id = None →
  deleteFileInternal id fs d = (set_files (delete id (files fs)) fs, d).
Proof. intros H1 H2 H3. unfold deleteFileInternal. by rewrite H1, H2, H3. Qed.

Lemma deleteFileInternal_disk id fs d meta :
  files fs !! id = Some meta → IsInMemory meta = false →
  deleteFileInternal id fs d =
    (set_files (delete id (files fs)) fs, delete (Path meta) d).
Proof. intros H1 H2. unfold deleteFileInternal. by rewrite H1, H2. Qed.

(** Closes a goal about the state a step returned, given the fact [lem]
    about the call and the equation [Hstep] naming its result. *)
Ltac after_step Hstep lem :=
  let H := fresh in pose proof lem as H; rewrite Hstep in H; exact H.

(** Splits a goal about [deleteFileInternal id fs d] along its four
    branches and rewrites the call to what the branch returns. *)
Ltac delete_cases id fs d :=
  let meta := fresh "meta" in
  let data := fresh "data" in
  let Hid := fresh "Hid" in
  let Hmem := fresh "Hmem" in
  let Hram := fresh "Hram" in
  destruct (files fs !! id) as [meta|] eqn:Hid;
  [ destruct (IsInMemory meta) eqn:Hmem;
    [ destruct (ramStore fs !! id) as [data|] eqn:Hram;
      [ rewrite (deleteFileInternal_ram id fs d meta data Hid Hmem Hram)
      | rewrite (deleteFileInternal_ram_missing id fs d meta Hid Hmem Hram) ]
    | rewrite (deleteFileInternal_disk id fs d meta Hid Hmem) ]
  | rewrite (deleteFileInternal_absent id fs d Hid) ].

Lemma deleteFileInternal_files id fs d :
  files (deleteFileInternal id fs d).1 = delete id (files fs).
Proof. delete_cases id fs d; try done. simpl. by rewrite delete_id. Qed.

Lemma deleteFileInternal_gone id fs d :
  files (deleteFileInternal id fs d).1 !! id = None.
Proof. rewrite deleteFileInternal_files. apply lookup_delete_eq. Qed.

(** ** GetFile, case by case *)

Lemma GetFile_absent now id fs d :
  files fs !! id = None →
  GetFile now id fs d = (Err ErrNotFoundOrExpired, fs, d).
Proof. intros H. unfold GetFile. by rewrite H. Qed.

Lemma GetFile_expired now id fs d meta :
  files fs !! id = Some meta → ExpiryTime meta < now →
  GetFile now id fs d =
    (Err ErrNotFoundOrExpired,
     (deleteFileInternal id fs d).1, (deleteFileInternal id fs d).2).
Proof.
  intros H Hlt. unfold GetFile, time_After. rewrite H.
  destruct (Z.ltb_spec (ExpiryTime meta) now); [|lia].
  by destruct (deleteFileInternal id fs d).
Qed.

Lemma GetFile_live now id fs d meta :
  files fs !! id = Some meta → now <= ExpiryTime meta →
  GetFile now id fs d =
    if IsInMemory meta then
      match ramStore fs !! id with
      | None => (Err ErrInconsistency, fs, d)
      | Some content => (Ok (meta, content), fs, d)
      end
    else
      match d !! Path meta with
      | None => (Err ErrReadDisk, fs, d)
      | Some content => (Ok (meta, content), fs, d)
      end.
Proof.
  intros H Hle. unfold GetFile, time_After. rewrite H.
  by destruct (Z.ltb_spec (ExpiryTime meta) now); [lia|].
Qed.

(** A read leaves the state alone or runs the deletion routine. *)
Lemma GetFile_state now id fs d :
  ((GetFile now id fs d).1.2, (GetFile now id fs d).2) = (fs, d) ∨
  ((GetFile now id fs d).1.2, (GetFile now id fs d).2) = deleteFileInternal id fs d.
Proof.
  destruct (files fs !! id) as [meta|] eqn:Hid.
  - destruct (Z.lt_ge_cases (ExpiryTime meta) now) as [Hlt|Hge].
    + right. rewrite (GetFile_expired _ _ _ _ _ Hid Hlt). simpl.
      by destruct (deleteFileInternal id fs d).
    + left. rewrite (GetFile_live _ _ _ _ _ Hid) by lia.
      destruct (IsInMemory meta);
        [destruct (ramStore fs !! id) | destruct (d !! Path meta)]; done.
  - left. by rewrite GetFile_absent.
Qed.

Section StoreFacts.

Variable filepath_Join : string -> string -> string.

(** The four ways through [AddFile]. *)
Lemma AddFile_cases env tf fs d :
  (generateID (rand_Read env) = None ∧
     AddFile filepath_Join env tf fs d = (Err ErrGenerateID, fs, d)) ∨
  (io_ReadAll env = None ∧
     AddFile filepath_Join env tf fs d = (Err ErrReadContent, fs, d)) ∨
  (∃ id raw,
     generateID (rand_Read env) = Some id ∧ io_ReadAll env = Some raw ∧
     convertStep env tf (newMeta env id (len64 raw)) (len64 raw) raw = None ∧
     AddFile filepath_Join env tf fs d = (Err ErrConversion, fs, d)) ∨
  (∃ id raw meta s stored,
     generateID (rand_Read env) = Some id ∧ io_ReadAll env = Some raw ∧
     convertStep env tf (newMeta env id (len64 raw)) (len64 raw) raw
       = Some (meta, s, stored) ∧
     AddFile filepath_Join env tf fs d = placeStep filepath_Join env id meta s stored fs d).
Proof.
  unfold AddFile.
  destruct (generateID (rand_Read env)) as [id|]; [|by left].
  destruct (io_ReadAll env) as [raw|]; [|by right; left].
  destruct (convertStep _ _ _ _ _) as [[[meta s] stored]|] eqn:E.
  - do 3 right. by exists id, raw, meta, s, stored.
  - right; right; left. by exists id, raw.
Qed.

Lemma placeStep_ram env id meta s stored fs d :
  int64_add (currentRAMUsage fs) s <= ramLimitBytes →
  placeStep filepath_Join env id meta s stored fs d =
    (Ok (set_IsInMemory true meta),
     mkFileStore (<[id := set_IsInMemory true meta]> (files fs))
       (<[id := stored]> (ramStore fs))
       (int64_add (currentRAMUsage fs) s) (diskPath fs),
     d).
Proof.
  intros Hle. unfold placeStep.
  destruct (Z.leb_spec (int64_add (currentRAMUsage fs) s) ramLimitBytes); [done | lia].
Qed.

Lemma placeStep_disk env id meta s stored fs d :
  ramLimitBytes < int64_add (currentRAMUsage fs) s →
  placeStep filepath_Join env id meta s stored fs d =
    let p := filepath_Join (diskPath fs) (id +:+ "_" +:+ ConvertedName meta) in
    match os_WriteFile env with
    | WriteDone =>
        (Ok (set_Path p (set_IsInMemory false meta)),
         mkFileStore (<[id := set_Path p (set_IsInMemory false meta)]> (files fs))
           (ramStore fs) (currentRAMUsage fs) (diskPath fs),
         <[p := stored]> d)
    | WriteFailed leftover => (Err ErrWriteDisk, fs, failedWrite p leftover d)
    end.
Proof.
  intros Hlt. unfold placeStep.
  destruct (Z.leb_spec (int64_add (currentRAMUsage fs) s) ramLimitBytes); [lia | done].
Qed.

(** ** The consistency of the tables is an invariant *)

Lemma consistent_fresh fs id :
  consistent fs → files fs !! id = None → ramStore fs !! id = None.
Proof.
  intros Hc Hid. destruct (ramStore fs !! id) as [data|] eqn:Hram; [|done].
  destruct (cons_record _ Hc _ _ Hram) as (meta & Hmeta & _). congruence.
Qed.

Lemma consistent_new mkdir1 mkdir2 path fs :
  NewFileStore mkdir1 mkdir2 path = Some fs → consistent fs.
Proof.
  unfold NewFileStore. intros Hnew.
  assert (∃ p, fs = mkFileStore ∅ ∅ 0 p) as [p ->].
  { destruct mkdir1; [|destruct mkdir2]; simplify_eq; eauto. }
  split; simpl; try (intros ? ? H; by rewrite lookup_empty in H).
  - by rewrite ramBytes_empty.
  - unfold ramLimitBytes. lia.
Qed.

Lemma consistent_placeStep env id meta s stored fs d :
  consistent fs → files fs !! id = None → ID meta = id →
  s = len64 stored → sliceLenOk stored →
  consistent (placeStep filepath_Join env id meta s stored fs d).1.2.
Proof.
  intros Hc Hid Hkey -> Hlen.
  pose proof (consistent_fresh _ _ Hc Hid) as Hram.
  pose proof (cons_budget _ Hc) as Hu.
  pose proof (len64_nonneg stored) as Hs.
  assert (int64_add (currentRAMUsage fs) (len64 stored)
          = currentRAMUsage fs + len64 stored) as Hadd
    by (apply int64_add_budget; unfold sliceLenOk in Hlen; lia).
  destruct (Z.le_gt_cases (int64_add (currentRAMUsage fs) (len64 stored))
              ramLimitBytes) as [Hle|Hgt].
  - rewrite placeStep_ram by done. simpl. split; simpl.
    + intros id' meta'. rewrite lookup_insert. case_decide; [|apply Hc].
      intros [= <-]. by subst.
    + intros id' meta'. rewrite !lookup_insert. case_decide; [eauto|].
      apply Hc.
    + intros id' data. rewrite !lookup_insert. case_decide; [eauto|].
      apply Hc.
    + rewrite ramBytes_insert by done. rewrite Hadd, (cons_usage _ Hc). lia.
    + lia.
  - rewrite placeStep_disk by done. destruct (os_WriteFile env); [|done].
    simpl. split; simpl.
    + intros id' meta'. rewrite lookup_insert. case_decide; [|apply Hc].
      intros [= <-]. by subst.
    + intros id' meta'. rewrite lookup_insert. case_decide; [|apply Hc].
      by intros [= <-].
    + intros id' data Hdata. rewrite lookup_insert. case_decide as Heq.
      * subst. congruence.
      * by apply (cons_record _ Hc _ _ Hdata).
    + apply Hc.
    + done.
Qed.

Lemma consistent_AddFile env tf fs d :
  consistent fs → admissible env tf fs →
  consistent (AddFile filepath_Join env tf fs d).1.2.
Proof.
  intros Hc [Hfresh Hlen].
  destruct (AddFile_cases env tf fs d)
    as [[_ ->]|[[_ ->]|[(id & raw & _ & _ & _ & ->)
       |(id & raw & meta & s & stored & Hid & Hraw & Hconv & ->)]]];
    try done.
  destruct (Hlen _ Hraw) as [Hrawlen Hconvlen].
  pose proof (convertStep_fields _ _ _ _ _ _ _ Hconv) as (Hs & Hkey & _).
  apply consistent_placeStep; auto.
  apply convertStep_some in Hconv as [(_ & _ & _ & ->)|(_ & name & Hperf & _)];
    eauto.
Qed.

Lemma consistent_delete id fs d :
  consistent fs → consistent (deleteFileInternal id fs d).1.
Proof.
  intros Hc.
  destruct (files fs !! id) as [meta|] eqn:Hid;
    [|by rewrite deleteFileInternal_absent].
  destruct (IsInMemory meta) eqn:Hmem.
  - destruct (cons_entry _ Hc _ _ Hid Hmem) as [data Hram].
    rewrite (deleteFileInternal_ram _ _ _ _ _ Hid Hmem Hram). simpl.
    pose proof (ramBytes_delete _ _ _ Hram) as Hsum.
    pose proof (ramBytes_nonneg (delete id (ramStore fs))) as Hrest.
    pose proof (len64_nonneg data) as Hdata.
    pose proof (cons_budget _ Hc) as Hu.
    pose proof (cons_usage _ Hc) as Husage.
    assert (int64_sub (currentRAMUsage fs) (len64 data)
            = currentRAMUsage fs - len64 data) as Hsub
      by (apply int64_sub_budget; lia).
    split; simpl.
    + intros id' meta'. rewrite lookup_delete. case_decide; [done|apply Hc].
    + intros id' meta'. rewrite !lookup_delete. case_decide; [done|apply Hc].
    + intros id' data'. rewrite !lookup_delete. case_decide; [done|apply Hc].
    + lia.
    + lia.
  - rewrite (deleteFileInternal_disk _ _ _ _ Hid Hmem). simpl. split; simpl.
    + intros id' meta'. rewrite lookup_delete. case_decide; [done|apply Hc].
    + intros id' meta'. rewrite lookup_delete. case_decide; [done|apply Hc].
    + intros id' data' Hdata. rewrite lookup_delete. case_decide as Heq.
      * subst. destruct (cons_record _ Hc _ _ Hdata) as (m & Hm & Hin).
        congruence.
      * by apply (cons_record _ Hc _ _ Hdata).
    + apply Hc.
    + apply Hc.
Qed.

Lemma consistent_GetFile now id fs d :
  consistent fs → consistent (GetFile now id fs d).1.2.
Proof.
  intros Hc. destruct (GetFile_state now id fs d) as [H|H].
  - by injection H as -> _.
  - pose proof (consistent_delete id fs d Hc) as Hd.
    rewrite <- H in Hd. exact Hd.
Qed.

Lemma consistent_cleanupOver now entries fs d :
  consistent fs → consistent (cleanupOver now entries fs d).1.
Proof.
  unfold cleanupOver. revert fs d.
  induction entries as [|[id meta] entries IH]; intros fs d Hc; [done|].
  simpl. unfold cleanupBody at 2. simpl.
  destruct (time_After now (ExpiryTime meta)); [|by apply IH].
  pose proof (consistent_delete id fs d Hc) as Hd.
  destruct (deleteFileInternal id fs d) as [fs1 d1]. by apply IH.
Qed.

Lemma reachableWith_consistent P fs d :
  reachableWith filepath_Join P fs d → consistent fs.
Proof.
  induction 1 as [mk1 mk2 path fs d Hnew
                 |env tf fs d r fs' d' _ IH Hadm _ Hstep
                 |now id fs d r fs' d' _ IH Hstep
                 |id fs d fs' d' _ IH Hstep
                 |now entries fs d fs' d' _ IH _ Hstep].
  - by eapply consistent_new.
  - after_step Hstep (consistent_AddFile env tf fs d IH Hadm).
  - after_step Hstep (consistent_GetFile now id fs d IH).
  - after_step Hstep (consistent_delete id fs d IH).
  - after_step Hstep (consistent_cleanupOver now entries fs d IH).
Qed.

(** ** Results of AddFile *)

(** A successful [AddFile] went through the placement step. *)
Lemma AddFile_ok env tf fs d meta fs' d' :
  AddFile filepath_Join env tf fs d = (Ok meta, fs', d') →
  ∃ id raw meta0 stored,
    generateID (rand_Read env) = Some id ∧ io_ReadAll env = Some raw ∧
    convertStep env tf (newMeta env id (len64 raw)) (len64 raw) raw
      = Some (meta0, len64 stored, stored) ∧
    placeStep filepath_Join env id meta0 (len64 stored) stored fs d
      = (Ok meta, fs', d').
Proof.
  intros Hadd.
  destruct (AddFile_cases env tf fs d)
    as [[_ H]|[[_ H]|[(id & raw & _ & _ & _ & H)
       |(id & raw & meta0 & s & stored & Hid & Hraw & Hconv & H)]]];
    rewrite H in Hadd; try done.
  pose proof (convertStep_fields _ _ _ _ _ _ _ Hconv) as (-> & _).
  by exists id, raw, meta0, stored.
Qed.

(** What a successful placement step returns. *)
Lemma placeStep_ok env id meta0 s stored fs d meta fs' d' :
  placeStep filepath_Join env id meta0 s stored fs d = (Ok meta, fs', d') →
  (int64_add (currentRAMUsage fs) s <= ramLimitBytes ∧
   meta = set_IsInMemory true meta0 ∧
   fs' = mkFileStore (<[id := meta]> (files fs)) (<[id := stored]> (ramStore fs))
           (int64_add (currentRAMUsage fs) s) (diskPath fs) ∧
   d' = d) ∨
  (ramLimitBytes < int64_add (currentRAMUsage fs) s ∧
   os_WriteFile env = WriteDone ∧
   meta = set_Path (filepath_Join (diskPath fs) (id +:+ "_" +:+ ConvertedName meta0))
            (set_IsInMemory false meta0) ∧
   fs' = mkFileStore (<[id := meta]> (files fs)) (ramStore fs)
           (currentRAMUsage fs) (diskPath fs) ∧
   d' = <[Path meta := stored]> d).
Proof.
  destruct (Z.le_gt_cases (int64_add (currentRAMUsage fs) s) ramLimitBytes)
    as [Hle|Hgt].
  - rewrite placeStep_ram by done. intros [= <- <- <-]. by left.
  - rewrite placeStep_disk by done.
    destruct (os_WriteFile env); [|done].
    intros [= <- <- <-]. right. by simpl.
Qed.

(** [meta.Size] is the length of the bytes read from the upload, whatever
    the conversion step did afterwards. *)
Lemma AddFile_Size env tf fs d meta fs' d' raw :
  AddFile filepath_Join env tf fs d = (Ok meta, fs', d') →
  io_ReadAll env = Some raw →
  Size meta = len64 raw.
Proof.
  intros Hadd Hraw.
  apply AddFile_ok in Hadd as (id & raw' & meta0 & stored & _ & Hraw' & Hconv & Hplace).
  assert (raw' = raw) as -> by congruence.
  pose proof (convertStep_fields _ _ _ _ _ _ _ Hconv) as (_ & _ & Hsize & _).
  apply placeStep_ok in Hplace as [(_ & -> & _)|(_ & _ & -> & _)]; simpl;
    by rewrite Hsize.
Qed.

(** C6: when [AddFile] returns an error (one of its four error returns),
    the metadata table, the content table and the usage counter are what
    they were before the call. *)
Theorem AddFile_error_leaves_store env tf fs d e fs' d' :
  AddFile filepath_Join env tf fs d = (Err e, fs', d') →
  e ∈ [ErrGenerateID; ErrReadContent; ErrConversion; ErrWriteDisk] ∧
  files fs' = files fs ∧ ramStore fs' = ramStore fs ∧
  currentRAMUsage fs' = currentRAMUsage fs.
Proof.
  intros Hadd.
  destruct (AddFile_cases env tf fs d)
    as [[_ H]|[[_ H]|[(id & raw & _ & _ & _ & H)
       |(id & raw & meta0 & s & stored & _ & _ & _ & H)]]];
    rewrite H in Hadd.
  - injection Hadd as <- <- <-. set_solver.
  - injection Hadd as <- <- <-. set_solver.
  - injection Hadd as <- <- <-. set_solver.
  - destruct (Z.le_gt_cases (int64_add (currentRAMUsage fs) s) ramLimitBytes)
      as [Hle|Hgt].
    + by rewrite placeStep_ram in Hadd.
    + rewrite placeStep_disk in Hadd by done.
      destruct (os_WriteFile env); [done|].
      injection Hadd as <- <- <-. set_solver.
Qed.

(** C2: for a call made in a reachable state whose identifier, content and
    conversion were obtained, with [s] the length of the bytes to store and
    [u] the counter: the record goes to memory exactly when [u + s] is
    within the budget and to disk otherwise; on the disk side the only
    error is that of the disk write; a payload longer than the whole
    budget is on the disk side. *)
Theorem AddFile_placement env tf fs d id raw meta0 s stored :
  reachable filepath_Join fs d →
  generateID (rand_Read env) = Some id →
  io_ReadAll env = Some raw →
  convertStep env tf (newMeta env id (len64 raw)) (len64 raw) raw
    = Some (meta0, s, stored) →
  sliceLenOk stored →
  s = len64 stored ∧
  (∀ meta fs' d',
     AddFile filepath_Join env tf fs d = (Ok meta, fs', d') →
     (IsInMemory meta = true ↔ currentRAMUsage fs + s <= ramLimitBytes) ∧
     (IsInMemory meta = false ↔ ramLimitBytes < currentRAMUsage fs + s)) ∧
  (currentRAMUsage fs + s <= ramLimitBytes →
     ∃ meta fs',
       AddFile filepath_Join env tf fs d = (Ok meta, fs', d) ∧
       IsInMemory meta = true ∧ files fs' !! id = Some meta ∧
       ramStore fs' !! id = Some stored) ∧
  (ramLimitBytes < currentRAMUsage fs + s →
     match os_WriteFile env with
     | WriteDone =>
         ∃ meta fs' d',
           AddFile filepath_Join env tf fs d = (Ok meta, fs', d') ∧
           IsInMemory meta = false ∧ files fs' !! id = Some meta ∧
           d' !! Path meta = Some stored ∧ ramStore fs' = ramStore fs
     | WriteFailed _ =>
         (AddFile filepath_Join env tf fs d).1 = (Err ErrWriteDisk, fs)
     end) ∧
  (ramLimitBytes < s → ramLimitBytes < currentRAMUsage fs + s).
Proof.
  intros Hreach Hid Hraw Hconv Hlen.
  pose proof (reachableWith_consistent _ _ _ Hreach) as Hc.
  pose proof (cons_budget _ Hc) as Hu.
  pose proof (convertStep_fields _ _ _ _ _ _ _ Hconv) as (Hs & _). subst s.
  pose proof (len64_nonneg stored) as Hpos.
  assert (int64_add (currentRAMUsage fs) (len64 stored)
          = currentRAMUsage fs + len64 stored) as Hadd
    by (apply int64_add_budget; unfold sliceLenOk in Hlen; lia).
  assert (AddFile filepath_Join env tf fs d
          = placeStep filepath_Join env id meta0 (len64 stored) stored fs d) as Heq.
  { unfold AddFile. by rewrite Hid, Hraw, Hconv. }
  split; [done|]. split; [|split; [|split]].
  - intros meta fs' d'. rewrite Heq. intros Hplace.
    apply placeStep_ok in Hplace as [(Hle & -> & _)|(Hgt & _ & -> & _)];
      simpl; rewrite Hadd in *; split; split; (done || lia).
  - intros Hle. rewrite Heq, placeStep_ram by lia.
    eexists _, _. split; [done|]. simpl. by rewrite !lookup_insert_eq.
  - intros Hgt. rewrite Heq, placeStep_disk by lia.
    destruct (os_WriteFile env); [|done].
    eexists _, _, _. split; [done|]. simpl. by rewrite !lookup_insert_eq.
  - lia.
Qed.

(** C4: a payload longer than the memory budget, put without conversion
    into a reachable store: a successful [AddFile] records it as a disk
    file, and a [GetFile] of the returned identifier at any time up to
    [ExpiryTime] returns the record and exactly the bytes put. *)
Theorem disk_round_trip env fs d x meta fs' d' :
  reachable filepath_Join fs d →
  io_ReadAll env = Some x →
  ramLimitBytes < len64 x →
  sliceLenOk x →
  AddFile filepath_Join env "" fs d = (Ok meta, fs', d') →
  IsInMemory meta = false ∧
  ∀ now, now <= ExpiryTime meta →
    GetFile now (ID meta) fs' d' = (Ok (meta, x), fs', d').
Proof.
  intros Hreach Hraw Hbig Hlen Hadd.
  pose proof (reachableWith_consistent _ _ _ Hreach) as Hc.
  pose proof (cons_budget _ Hc) as Hu.
  apply AddFile_ok in Hadd as (id & raw & meta0 & stored & _ & Hraw' & Hconv & Hplace).
  assert (raw = x) as -> by congruence.
  rewrite convertStep_none in Hconv. injection Hconv as <- Hs <-.
  assert (int64_add (currentRAMUsage fs) (len64 x) = currentRAMUsage fs + len64 x)
    as Hsum by (apply int64_add_budget; unfold sliceLenOk in Hlen; lia).
  apply placeStep_ok in Hplace as [(Hle & _)|(_ & _ & Hmeta & -> & ->)]; [lia|].
  assert (IsInMemory meta = false) as Hmem by (by rewrite Hmeta).
  assert (ID meta = id) as Hkey by (by rewrite Hmeta).
  split; [done|]. intros now Hnow.
  rewrite (GetFile_live now (ID meta) _ _ meta); [| |done].
  - by rewrite Hmem, lookup_insert_eq.
  - simpl. rewrite Hkey. apply lookup_insert_eq.
Qed.

(** ** Reading and deleting *)

(** A read never adds or alters a record. *)
Lemma GetFile_keeps_records now id fs d id' m :
  files (GetFile now id fs d).1.2 !! id' = Some m → files fs !! id' = Some m.
Proof.
  destruct (GetFile_state now id fs d) as [H|H].
  - by injection H as -> _.
  - assert ((GetFile now id fs d).1.2 = (deleteFileInternal id fs d).1) as ->
      by (by rewrite <- H).
    rewrite deleteFileInternal_files, lookup_delete. by case_decide.
Qed.

(** The "file not found or expired" return is taken for an unknown
    identifier and for a record past its time, and for nothing else. *)
Lemma GetFile_error_iff now id fs d :
  (GetFile now id fs d).1.1 = Err ErrNotFoundOrExpired ↔
  files fs !! id = None ∨
  ∃ meta, files fs !! id = Some meta ∧ ExpiryTime meta < now.
Proof.
  destruct (files fs !! id) as [meta|] eqn:Hid.
  - destruct (Z.lt_ge_cases (ExpiryTime meta) now) as [Hlt|Hge].
    + rewrite (GetFile_expired _ _ _ _ _ Hid Hlt). simpl. split; eauto.
    + rewrite (GetFile_live _ _ _ _ _ Hid) by lia. split.
      * destruct (IsInMemory meta);
          [destruct (ramStore fs !! id) | destruct (d !! Path meta)]; done.
      * intros [?|(m & [= <-] & Hlt)]; [done | lia].
  - rewrite GetFile_absent by done. simpl. split; eauto.
Qed.

(** C5: [GetFile] returns the "file not found or expired" error exactly
    when the identifier has no record or the time is after the record's
    [ExpiryTime]; an unknown identifier leaves the state alone; for an
    expired one the state returned with the error is the one
    [deleteFileInternal] produces, in which the record is gone; the error
    value is the same in both cases. *)
Theorem GetFile_not_found now id fs d :
  ((GetFile now id fs d).1.1 = Err ErrNotFoundOrExpired ↔
     files fs !! id = None ∨
     ∃ meta, files fs !! id = Some meta ∧ ExpiryTime meta < now) ∧
  (files fs !! id = None →
     GetFile now id fs d = (Err ErrNotFoundOrExpired, fs, d)) ∧
  (∀ meta, files fs !! id = Some meta → ExpiryTime meta < now →
     GetFile now id fs d =
       (Err ErrNotFoundOrExpired,
        (deleteFileInternal id fs d).1, (deleteFileInternal id fs d).2) ∧
     files (GetFile now id fs d).1.2 !! id = None).
Proof.
  split; [|split].
  - apply GetFile_error_iff.
  - apply GetFile_absent.
  - intros meta Hid Hlt. rewrite (GetFile_expired _ _ _ _ _ Hid Hlt).
    split; [done|]. simpl. apply deleteFileInternal_gone.
Qed.

(** C7, as the code has it: [UploadTime] and [ExpiryTime] come from two
    readings of the clock, so [ExpiryTime] is the second reading plus
    [fileExpiryDuration]; it is no earlier than [UploadTime] plus the
    duration when the clock does not run backwards, and equal to it when
    the two readings coincide. The record is stored as returned, and a
    [GetFile] neither alters a record nor returns another than the stored
    one. *)
Theorem ExpiryTime_from_second_reading env tf fs d meta fs' d' :
  AddFile filepath_Join env tf fs d = (Ok meta, fs', d') →
  UploadTime meta = time_Now_upload env ∧
  ExpiryTime meta = time_Add (time_Now_expiry env) fileExpiryDuration ∧
  (time_Now_upload env <= time_Now_expiry env →
     time_Add (UploadTime meta) fileExpiryDuration <= ExpiryTime meta) ∧
  (time_Now_expiry env = time_Now_upload env →
     ExpiryTime meta = time_Add (UploadTime meta) fileExpiryDuration) ∧
  files fs' !! ID meta = Some meta ∧
  (∀ now id fs1 d1,
     (∀ id' m, files (GetFile now id fs1 d1).1.2 !! id' = Some m →
               files fs1 !! id' = Some m) ∧
     (∀ m content, (GetFile now id fs1 d1).1.1 = Ok (m, content) →
                   files fs1 !! id = Some m ∧
                   files (GetFile now id fs1 d1).1.2 = files fs1)).
Proof.
  intros Hadd.
  apply AddFile_ok in Hadd as (id & raw & meta0 & stored & _ & _ & Hconv & Hplace).
  pose proof (convertStep_fields _ _ _ _ _ _ _ Hconv)
    as (_ & Hkey & _ & Hup & Hexp & _).
  simpl in Hkey, Hup, Hexp.
  assert (UploadTime meta = time_Now_upload env ∧
          ExpiryTime meta = time_Add (time_Now_expiry env) fileExpiryDuration ∧
          files fs' !! ID meta = Some meta) as (HU & HE & Hstored).
  { apply placeStep_ok in Hplace as [(_ & Hm & -> & _)|(_ & _ & Hm & -> & _)];
      simpl; (assert (ID meta = id) as -> by (by rewrite Hm));
      rewrite lookup_insert_eq; rewrite Hm; simpl; by rewrite Hup, Hexp. }
  rewrite HU, HE. unfold time_Add.
  split; [done|]. split; [done|]. split; [lia|]. split; [by intros ->|].
  split; [done|]. intros now id1 fs1 d1. split.
  - apply GetFile_keeps_records.
  - intros m content.
    destruct (files fs1 !! id1) as [m1|] eqn:Hid1.
    + destruct (Z.lt_ge_cases (ExpiryTime m1) now) as [Hlt|Hge].
      * by rewrite (GetFile_expired _ _ _ _ _ Hid1 Hlt).
      * rewrite (GetFile_live _ _ _ _ _ Hid1) by lia.
        destruct (IsInMemory m1);
          [destruct (ramStore fs1 !! id1) | destruct (d1 !! Path m1)];
          simpl; intros [= <- <-] || done; done.
    + by rewrite GetFile_absent.
Qed.

(** C8: [deleteFileInternal] on an identifier without record returns the
    store and the disk as they are; run a second time on its own result it
    changes nothing more. It has no error to return. *)
Theorem deleteFileInternal_idempotent id fs d :
  (files fs !! id = None → deleteFileInternal id fs d = (fs, d)) ∧
  files (deleteFileInternal id fs d).1 !! id = None ∧
  deleteFileInternal id (deleteFileInternal id fs d).1 (deleteFileInternal id fs d).2
    = deleteFileInternal id fs d.
Proof.
  split; [apply deleteFileInternal_absent|].
  split; [apply deleteFileInternal_gone|].
  rewrite deleteFileInternal_absent by apply deleteFileInternal_gone.
  by destruct (deleteFileInternal id fs d).
Qed.

(** C9, as the code has it: the file of a disk record is written at
    [filepath.Join] of the store's [diskPath] and the file name made of
    the identifier, an underscore and the record's [ConvertedName]; the
    identifier is the one [generateID] returned and [diskPath] is kept. *)
Theorem disk_file_path env tf fs d meta fs' d' :
  AddFile filepath_Join env tf fs d = (Ok meta, fs', d') →
  IsInMemory meta = false →
  Path meta =
    filepath_Join (diskPath fs) (ID meta +:+ "_" +:+ ConvertedName meta) ∧
  generateID (rand_Read env) = Some (ID meta) ∧
  diskPath fs' = diskPath fs ∧
  ∃ raw meta0 stored,
    io_ReadAll env = Some raw ∧
    convertStep env tf (newMeta env (ID meta) (len64 raw)) (len64 raw) raw
      = Some (meta0, len64 stored, stored) ∧
    d' = <[Path meta := stored]> d.
Proof.
  intros Hadd Hmem.
  apply AddFile_ok in Hadd as (id & raw & meta0 & stored & Hid & Hraw & Hconv & Hplace).
  pose proof (convertStep_fields _ _ _ _ _ _ _ Hconv) as (_ & Hkey & _).
  simpl in Hkey.
  apply placeStep_ok in Hplace as [(_ & Hm & _)|(_ & _ & Hm & -> & ->)].
  { rewrite Hm in Hmem. done. }
  assert (ID meta = id) as Hidm by (by rewrite Hm).
  assert (ConvertedName meta = ConvertedName meta0) as Hname by (by rewrite Hm).
  rewrite Hidm, Hname. split; [by rewrite Hm|]. split; [done|]. split; [done|].
  by exists raw, meta0, stored.
Qed.

(** ** One tick of the sweeper *)

Lemma cleanupOver_cons now e entries fs d :
  cleanupOver now (e :: entries) fs d =
    cleanupOver now entries (cleanupBody now (fs, d) e).1 (cleanupBody now (fs, d) e).2.
Proof. unfold cleanupOver. simpl. by destruct (cleanupBody now (fs, d) e). Qed.

Lemma cleanupBody_files now fs d e :
  files (cleanupBody now (fs, d) e).1 =
    if time_After now (ExpiryTime e.2) then delete e.1 (files fs) else files fs.
Proof.
  unfold cleanupBody. simpl.
  destruct (time_After now (ExpiryTime e.2)); [|done].
  apply deleteFileInternal_files.
Qed.

Lemma deleteFileInternal_ramStore_other id fs d k :
  k ≠ id → ramStore (deleteFileInternal id fs d).1 !! k = ramStore fs !! k.
Proof.
  intros Hne. delete_cases id fs d; try done. simpl. by rewrite lookup_delete_ne.
Qed.

(** A record is in the table after the sweep exactly when it was there
    before and no entry the loop saw for it was past its time. *)
Lemma cleanupOver_lookup now entries fs d k m :
  files (cleanupOver now entries fs d).1 !! k = Some m ↔
  files fs !! k = Some m ∧
  ∀ m', (k, m') ∈ entries → now <= ExpiryTime m'.
Proof.
  revert fs d. induction entries as [|[id me] entries IH]; intros fs d.
  - unfold cleanupOver. simpl. split; [|by intros [? _]].
    intros H. split; [done|]. intros m' Hin. by apply elem_of_nil in Hin.
  - rewrite cleanupOver_cons, IH, cleanupBody_files. simpl.
    unfold time_After. destruct (Z.ltb_spec (ExpiryTime me) now) as [Hlt|Hge].
    + rewrite lookup_delete. case_decide as Heq.
      * subst. split; [by intros [? _]|]. intros [_ Hall].
        specialize (Hall me (list_elem_of_here _ _)). lia.
      * split; intros [Hk Hall]; (split; [done|]); intros m' Hin.
        -- apply elem_of_cons in Hin as [[= -> ->]|Hin]; [done|by apply Hall].
        -- apply Hall. by apply list_elem_of_further.
    + split; intros [Hk Hall]; (split; [done|]); intros m' Hin.
      * apply elem_of_cons in Hin as [[= -> ->]|Hin]; [lia|by apply Hall].
      * apply Hall. by apply list_elem_of_further.
Qed.

Lemma cleanupOver_ramStore now entries fs d k :
  (∀ m', (k, m') ∈ entries → now <= ExpiryTime m') →
  ramStore (cleanupOver now entries fs d).1 !! k = ramStore fs !! k.
Proof.
  revert fs d. induction entries as [|[id me] entries IH]; intros fs d Hall.
  - done.
  - rewrite cleanupOver_cons, IH.
    + unfold cleanupBody, time_After. simpl.
      destruct (Z.ltb_spec (ExpiryTime me) now) as [Hlt|Hge]; [|done].
      apply deleteFileInternal_ramStore_other. intros ->.
      specialize (Hall me (list_elem_of_here _ _)). lia.
    + intros m' Hin. apply Hall. by apply list_elem_of_further.
Qed.

(** The sweep removes exactly the records past their time, whatever the
    order in which the loop visits the table. *)
Lemma cleanupOver_sweeps now entries fs d k :
  entries ≡ₚ map_to_list (files fs) →
  files (cleanupOver now entries fs d).1 !! k =
    match files fs !! k with
    | Some m => if time_After now (ExpiryTime m) then None else Some m
    | None => None
    end.
Proof.
  intros Hperm. apply option_eq. intros m. rewrite cleanupOver_lookup.
  assert (∀ m', (k, m') ∈ entries ↔ files fs !! k = Some m') as Hin.
  { intros m'. rewrite Hperm. apply elem_of_map_to_list. }
  unfold time_After. destruct (files fs !! k) as [m0|] eqn:Hk.
  - destruct (Z.ltb_spec (ExpiryTime m0) now) as [Hlt|Hge].
    + split; [|done]. intros [[= ->] Hall].
      specialize (Hall m (proj2 (Hin m) eq_refl)). lia.
    + split; [by intros [? _]|]. intros [= ->]. split; [done|].
      intros m' Hm'. apply Hin in Hm'. by injection Hm' as <-.
  - split; [by intros [? _]|done].
Qed.

(** C10: for a record of the table, [GetFile] answers "file not found or
    expired" exactly at the times strictly after [ExpiryTime]; at the time
    [ExpiryTime] itself it returns the record and its bytes (those of the
    content table for a memory record, which a reachable store always
    holds, those of the file for a disk record) and changes nothing; a
    sweep removes the record exactly at the times strictly after
    [ExpiryTime], and at any other time keeps the record and its entry of
    the content table. *)
Theorem expiry_is_strict id fs d meta :
  files fs !! id = Some meta →
  (∀ now, (GetFile now id fs d).1.1 = Err ErrNotFoundOrExpired ↔
          ExpiryTime meta < now) ∧
  (∀ content,
     (if IsInMemory meta then ramStore fs !! id else d !! Path meta)
       = Some content →
     GetFile (ExpiryTime meta) id fs d = (Ok (meta, content), fs, d)) ∧
  (reachable filepath_Join fs d → IsInMemory meta = true →
     ∃ content,
       GetFile (ExpiryTime meta) id fs d = (Ok (meta, content), fs, d)) ∧
  (∀ now entries, entries ≡ₚ map_to_list (files fs) →
     (files (cleanupOver now entries fs d).1 !! id = None ↔
        ExpiryTime meta < now) ∧
     (now <= ExpiryTime meta →
        files (cleanupOver now entries fs d).1 !! id = Some meta ∧
        ramStore (cleanupOver now entries fs d).1 !! id = ramStore fs !! id)) ∧
  files (cleanupTick (ExpiryTime meta) fs d).1 !! id = Some meta.
Proof.
  intros Hid.
  assert (∀ content,
     (if IsInMemory meta then ramStore fs !! id else d !! Path meta)
       = Some content →
     GetFile (ExpiryTime meta) id fs d = (Ok (meta, content), fs, d)) as Hget.
  { intros content Hcontent. rewrite (GetFile_live _ _ _ _ _ Hid) by lia.
    destruct (IsInMemory meta); by rewrite Hcontent. }
  assert (∀ now entries, entries ≡ₚ map_to_list (files fs) →
     files (cleanupOver now entries fs d).1 !! id =
       if time_After now (ExpiryTime meta) then None else Some meta) as Hsweep.
  { intros now entries Hperm.
    by rewrite (cleanupOver_sweeps _ _ _ _ _ Hperm), Hid. }
  split; [|split; [done|split; [|split]]].
  - intros now. rewrite GetFile_error_iff. split; [|eauto].
    intros [Hnone|(m & Hm & Hlt)]; congruence.
  - intros Hreach Hmem.
    pose proof (reachableWith_consistent _ _ _ Hreach) as Hc.
    destruct (cons_entry _ Hc _ _ Hid Hmem) as [content Hram].
    exists content. apply Hget. by rewrite Hmem.
  - intros now entries Hperm. rewrite (Hsweep _ _ Hperm). unfold time_After.
    destruct (Z.ltb_spec (ExpiryTime meta) now) as [Hlt|Hge].
    + split; [done|lia].
    + split; [split; [done|lia]|]. intros _. split; [done|].
      apply cleanupOver_ramStore. intros m' Hin.
      rewrite Hperm in Hin. apply elem_of_map_to_list in Hin.
      assert (m' = meta) as -> by congruence. done.
  - unfold cleanupTick. rewrite Hsweep by done. unfold time_After.
    by rewrite Z.ltb_irrefl.
Qed.

End StoreFacts.

(** * Accounting: the counter, the contents and the Size fields *)

Section Accounting.

Variable filepath_Join : string -> string -> string.

(** When every memory record has an entry of the length its [Size] says,
    and every entry has its memory record, the two sums agree. *)
Lemma memorySizes_ramBytes (fm : gmap string FileMetadata)
    (rs : gmap string (list byte)) :
  (∀ id meta, fm !! id = Some meta → IsInMemory meta = true →
     ∃ data, rs !! id = Some data ∧ Size meta = len64 data) →
  (∀ id data, rs !! id = Some data →
     ∃ meta, fm !! id = Some meta ∧ IsInMemory meta = true) →
  memorySizes fm = ramBytes rs.
Proof.
  revert rs. induction fm as [|i x fm Hi IH] using map_ind; intros rs Hentry Hrecord.
  - assert (rs = ∅) as ->.
    { apply map_empty. intros k. destruct (rs !! k) as [data|] eqn:Hk; [|done].
      destruct (Hrecord _ _ Hk) as (m & Hm & _). by rewrite lookup_empty in Hm. }
    by rewrite memorySizes_empty, ramBytes_empty.
  - rewrite memorySizes_insert by done. destruct (IsInMemory x) eqn:Hmem.
    + destruct (Hentry i x (lookup_insert_eq _ _ _) Hmem) as (data & Hdata & Hsize).
      rewrite (ramBytes_delete i data rs Hdata), Hsize. f_equal. apply IH.
      * intros id meta Hid Hin. assert (id ≠ i) as Hne by congruence.
        destruct (Hentry id meta) as (data' & Hdata' & Hsize'); [|done|].
        { by rewrite lookup_insert_ne. }
        exists data'. by rewrite lookup_delete_ne.
      * intros id data'. rewrite lookup_delete. case_decide as Hne; [done|].
        intros Hdata'. destruct (Hrecord _ _ Hdata') as (m & Hm & Hin).
        rewrite lookup_insert_ne in Hm by done. eauto.
    + apply IH.
      * intros id meta Hid Hin. assert (id ≠ i) as Hne by congruence.
        apply Hentry; [|done]. by rewrite lookup_insert_ne.
      * intros id data Hdata. destruct (Hrecord _ _ Hdata) as (m & Hm & Hin).
        rewrite lookup_insert in Hm. case_decide as Heq; [|eauto].
        injection Hm as <-. congruence.
Qed.

Lemma consistent_sizes_sum fs :
  consistent fs → sizesMatch fs → memorySizes (files fs) = currentRAMUsage fs.
Proof.
  intros Hc Hsizes. rewrite (cons_usage _ Hc). apply memorySizes_ramBytes.
  - intros id meta Hid Hmem.
    destruct (cons_entry _ Hc _ _ Hid Hmem) as [data Hdata]. eauto.
  - apply (cons_record _ Hc).
Qed.

(** [sizesMatch] survives whatever only removes records and entries. *)
Lemma sizesMatch_shrink fs fs' :
  (∀ id m, files fs' !! id = Some m → files fs !! id = Some m) →
  (∀ id data, ramStore fs' !! id = Some data → ramStore fs !! id = Some data) →
  sizesMatch fs → sizesMatch fs'.
Proof. intros Hf Hr Hs id meta data Hid Hdata. eapply Hs; eauto. Qed.

Lemma deleteFileInternal_shrinks id fs d :
  (∀ k m, files (deleteFileInternal id fs d).1 !! k = Some m →
          files fs !! k = Some m) ∧
  (∀ k data, ramStore (deleteFileInternal id fs d).1 !! k = Some data →
             ramStore fs !! k = Some data).
Proof.
  split.
  - intros k m. rewrite deleteFileInternal_files, lookup_delete. by case_decide.
  - intros k data'. delete_cases id fs d; try done. simpl.
    rewrite lookup_delete. by case_decide.
Qed.

Lemma sizesMatch_delete id fs d :
  sizesMatch fs → sizesMatch (deleteFileInternal id fs d).1.
Proof.
  destruct (deleteFileInternal_shrinks id fs d) as [Hf Hr].
  by apply sizesMatch_shrink.
Qed.

Lemma sizesMatch_GetFile now id fs d :
  sizesMatch fs → sizesMatch (GetFile now id fs d).1.2.
Proof.
  intros Hs. destruct (GetFile_state now id fs d) as [H|H].
  - by injection H as -> _.
  - pose proof (sizesMatch_delete id fs d Hs) as Hd. by rewrite <- H in Hd.
Qed.

Lemma sizesMatch_cleanupOver now entries fs d :
  sizesMatch fs → sizesMatch (cleanupOver now entries fs d).1.
Proof.
  revert fs d. induction entries as [|e entries IH]; intros fs d Hs; [done|].
  rewrite cleanupOver_cons. apply IH. unfold cleanupBody. simpl.
  destruct (time_After now (ExpiryTime e.2)); [|done].
  by apply sizesMatch_delete.
Qed.

Lemma sizesMatch_AddFile env tf fs d :
  consistent fs → sizesMatch fs → admissible env tf fs →
  lengthPreserving env tf →
  sizesMatch (AddFile filepath_Join env tf fs d).1.2.
Proof.
  intros Hc Hs [Hfresh _] Hkeep.
  destruct (AddFile_cases filepath_Join env tf fs d)
    as [[_ ->]|[[_ ->]|[(id & raw & _ & _ & _ & ->)
       |(id & raw & meta & s & stored & Hid & Hraw & Hconv & ->)]]];
    try done.
  pose proof (convertStep_fields _ _ _ _ _ _ _ Hconv) as (_ & _ & Hsize & _).
  simpl in Hsize.
  assert (len64 stored = len64 raw) as Hlen.
  { apply convertStep_some in Hconv as [(_ & _ & _ & ->)|(Htf & name & Hperf & _)];
      [done|]. unfold len64. by rewrite (Hkeep Htf _ _ _ Hraw Hperf). }
  pose proof (Hfresh _ Hid) as Hnew.
  pose proof (consistent_fresh _ _ Hc Hnew) as Hram.
  destruct (Z.le_gt_cases (int64_add (currentRAMUsage fs) s) ramLimitBytes)
    as [Hle|Hgt].
  - rewrite placeStep_ram by done. simpl. intros k m data. simpl.
    rewrite !lookup_insert. case_decide as Hk.
    + intros [= <-] [= <-]. simpl. congruence.
    + apply Hs.
  - rewrite placeStep_disk by done. destruct (os_WriteFile env); [|done].
    simpl. intros k m data. simpl. rewrite lookup_insert. case_decide as Hk.
    + subst. congruence.
    + apply Hs.
Qed.

Lemma reachableWith_sizesMatch fs d :
  reachableWith filepath_Join lengthPreserving fs d → sizesMatch fs.
Proof.
  induction 1 as [mk1 mk2 path fs d Hnew
                 |env tf fs d r fs' d' Hreach IH Hadm Hkeep Hstep
                 |now id fs d r fs' d' _ IH Hstep
                 |id fs d fs' d' _ IH Hstep
                 |now entries fs d fs' d' _ IH _ Hstep].
  - assert (files fs = ∅) as Hempty.
    { unfold NewFileStore in Hnew.
      destruct mk1; [|destruct mk2]; by simplify_eq. }
    intros k m data Hk. by rewrite Hempty, lookup_empty in Hk.
  - pose proof (reachableWith_consistent _ _ _ _ Hreach) as Hc.
    after_step Hstep (sizesMatch_AddFile env tf fs d Hc IH Hadm Hkeep).
  - after_step Hstep (sizesMatch_GetFile now id fs d IH).
  - after_step Hstep (sizesMatch_delete id fs d IH).
  - after_step Hstep (sizesMatch_cleanupOver now entries fs d IH).
Qed.

(** X1: in every reachable state the two tables are consistent: each
    record is stored under its own [ID], each memory record has its entry
    in the content table and each entry its memory record, the usage
    counter is the number of bytes the content table holds, and it is
    within the budget. *)
Theorem reachable_store_consistent fs d :
  reachable filepath_Join fs d → consistent fs.
Proof. apply reachableWith_consistent. Qed.

(** X2: as long as no conversion changed the length of an upload, every
    [Size] of a memory record is the length of its content and the usage
    counter is the sum of [Size] over the memory records. *)
Theorem usage_counter_sum_of_Size fs d :
  reachableWith filepath_Join lengthPreserving fs d →
  sizesMatch fs ∧ memorySizes (files fs) = currentRAMUsage fs.
Proof.
  intros Hreach.
  pose proof (reachableWith_consistent _ _ _ _ Hreach) as Hc.
  pose proof (reachableWith_sizesMatch _ _ Hreach) as Hs.
  split; [done|]. by apply consistent_sizes_sum.
Qed.

(** X3: the [Size] of the record a successful [AddFile] returns is the
    length of the bytes read from the upload; without target format these
    are the bytes stored. *)
Theorem Size_is_submitted_length env tf fs d meta fs' d' raw :
  AddFile filepath_Join env tf fs d = (Ok meta, fs', d') →
  io_ReadAll env = Some raw →
  Size meta = len64 raw ∧
  (tf = "" → IsInMemory meta = true → ramStore fs' !! ID meta = Some raw) ∧
  (tf = "" → IsInMemory meta = false → d' !! Path meta = Some raw).
Proof.
  intros Hadd Hraw. split; [by eapply AddFile_Size|].
  apply AddFile_ok in Hadd as (id & raw' & meta0 & stored & _ & Hraw' & Hconv & Hplace).
  assert (raw' = raw) as -> by congruence.
  pose proof (convertStep_fields _ _ _ _ _ _ _ Hconv) as (_ & Hkey & _).
  simpl in Hkey.
  split; intros -> Hmem; rewrite convertStep_none in Hconv;
    injection Hconv as <- _ <-;
    apply placeStep_ok in Hplace as [(_ & Hm & -> & _)|(_ & _ & Hm & -> & ->)];
    rewrite Hm in Hmem; try done; simpl.
  - rewrite Hm. simpl. apply lookup_insert_eq.
  - apply lookup_insert_eq.
Qed.

(** X4: after a tick of the sweeper no record past its time is left. *)
Theorem cleanupTick_leaves_no_expired now fs d id meta :
  files (cleanupTick now fs d).1 !! id = Some meta → now <= ExpiryTime meta.
Proof.
  unfold cleanupTick. rewrite (cleanupOver_sweeps now _ fs d id) by done.
  destruct (files fs !! id) as [m|]; [|done]. unfold time_After.
  destruct (Z.ltb_spec (ExpiryTime m) now); [done|]. by intros [= <-].
Qed.

End Accounting.

(** * The operations on concrete inputs *)

Lemma reachable_fs0 d : reachable unix_join fs0 d.
Proof. by apply (reach_new _ _ true true ""). Qed.

Lemma admissible_fresh env tf :
  (∀ raw, io_ReadAll env = Some raw →
     sliceLenOk raw ∧
     ∀ conv name,
       performConversion env raw (Filename env) tf = Some (conv, name) →
       sliceLenOk conv) →
  admissible env tf fs0.
Proof. intros H. split; [|done]. intros id _. apply lookup_empty. Qed.

Lemma len64_bigPayload : len64 bigPayload = ramLimitBytes + 1.
Proof.
  unfold len64, bigPayload. rewrite length_replicate.
  unfold ramLimitBytes. lia.
Qed.

Lemma sliceLenOk_bigPayload : sliceLenOk bigPayload.
Proof.
  unfold sliceLenOk. rewrite len64_bigPayload.
  unfold maxInt64, ramLimitBytes. lia.
Qed.

Opaque bigPayload.

(** The upload of [bigPayload] into the fresh store lands on the disk. *)
Lemma AddFile_big name :
  AddFile unix_join (env_big name) "" fs0 ∅
    = (Ok (meta_big name), fs_big name, disk_big name).
Proof.
  unfold AddFile.
  change (generateID (rand_Read (env_big name))) with (Some id16).
  change (io_ReadAll (env_big name)) with (Some bigPayload).
  cbv beta iota zeta. rewrite convertStep_none.
  rewrite placeStep_disk.
  - change (os_WriteFile (env_big name)) with WriteDone. cbv beta iota zeta.
    unfold newMeta, set_Path, set_IsInMemory, meta_big, fs_big, disk_big.
    cbn [ID OriginalName ConvertedName Size UploadTime ExpiryTime IsInMemory
         Path ContentType Filename HeaderContentType time_Now_upload
         time_Now_expiry env_big files ramStore currentRAMUsage diskPath fs0].
    rewrite len64_bigPayload. reflexivity.
  - rewrite len64_bigPayload. change (currentRAMUsage fs0) with 0.
    vm_compute. reflexivity.
Qed.

Lemma AddFile_big_failing name :
  AddFile unix_join (env_big_failing name) "" fs_md ∅
    = (Err ErrWriteDisk, fs_md,
       <[unix_join defaultDiskPath (id16b +:+ "_" +:+ name) := []]> ∅).
Proof.
  unfold AddFile.
  change (generateID (rand_Read (env_big_failing name))) with (Some id16b).
  change (io_ReadAll (env_big_failing name)) with (Some bigPayload).
  cbv beta iota zeta. rewrite convertStep_none.
  rewrite placeStep_disk; [done|].
  rewrite len64_bigPayload. change (currentRAMUsage fs_md) with 37.
  vm_compute. reflexivity.
Qed.

(** The upload of a.md converted to html lands in memory. *)
Lemma AddFile_md :
  AddFile unix_join env_md "html" fs0 ∅ = (Ok meta_md, fs_md, ∅).
Proof. vm_compute. reflexivity. Qed.

Lemma reachable_fs_md : reachable unix_join fs_md ∅.
Proof.
  apply (reach_AddFile _ _ env_md "html" fs0 ∅ (Ok meta_md) fs_md ∅).
  - apply reachable_fs0.
  - apply admissible_fresh. intros raw [= <-]. split.
    + vm_compute. discriminate.
    + intros conv name [= <- _]. vm_compute. discriminate.
  - done.
  - apply AddFile_md.
Qed.

(** C3, on the upload of a.md with target "html": the record says
    [Size = 2], the length of the bytes submitted, while the content
    stored for it is the 37 bytes the conversion returned. *)
Theorem AddFile_Size_stale :
  AddFile unix_join env_md "html" fs0 ∅ = (Ok meta_md, fs_md, ∅) ∧
  Size meta_md = 2 ∧
  ramStore fs_md !! ID meta_md = Some (bytes_of html_of_hi) ∧
  len64 (bytes_of html_of_hi) = 37.
Proof. split; [apply AddFile_md|]. vm_compute. done. Qed.

(** C1, in the store reached by that upload: the only memory record has
    its one entry in the content table, the counter is 37, the length of
    that entry, and the sum of [Size] over the memory records is 2. *)
Theorem usage_counter_not_sum_of_Size :
  reachable unix_join fs_md ∅ ∧
  files fs_md !! id16 = Some meta_md ∧ IsInMemory meta_md = true ∧
  ramStore fs_md !! id16 = Some (bytes_of html_of_hi) ∧
  currentRAMUsage fs_md = 37 ∧
  ramBytes (ramStore fs_md) = 37 ∧
  memorySizes (files fs_md) = 2.
Proof. split; [apply reachable_fs_md|]. vm_compute. done. Qed.

(** ** Instances of the theorems *)

Lemma AddFile_placement_witness :
  ∃ meta fs',
    AddFile unix_join env_md "" fs0 ∅ = (Ok meta, fs', ∅) ∧
    IsInMemory meta = true ∧ files fs' !! id16 = Some meta ∧
    ramStore fs' !! id16 = Some (bytes_of "hi").
Proof.
  destruct (AddFile_placement unix_join env_md "" fs0 ∅ id16 (bytes_of "hi")
              (newMeta env_md id16 2) 2 (bytes_of "hi"))
    as (_ & _ & Hram & _).
  - apply reachable_fs0.
  - reflexivity.
  - reflexivity.
  - reflexivity.
  - vm_compute. discriminate.
  - apply Hram. vm_compute. discriminate.
Defined.

Lemma disk_round_trip_witness :
  IsInMemory (meta_big "big.bin") = false ∧
  ∀ now, now <= ExpiryTime (meta_big "big.bin") →
    GetFile now (ID (meta_big "big.bin")) (fs_big "big.bin") (disk_big "big.bin")
      = (Ok (meta_big "big.bin", bigPayload), fs_big "big.bin", disk_big "big.bin").
Proof.
  apply (disk_round_trip unix_join (env_big "big.bin") fs0 ∅ bigPayload).
  - apply reachable_fs0.
  - reflexivity.
  - rewrite len64_bigPayload. lia.
  - apply sliceLenOk_bigPayload.
  - apply AddFile_big.
Defined.

Lemma GetFile_not_found_witness :
  GetFile 600000001041 id16 fs_md ∅ =
    (Err ErrNotFoundOrExpired,
     (deleteFileInternal id16 fs_md ∅).1, (deleteFileInternal id16 fs_md ∅).2) ∧
  files (GetFile 600000001041 id16 fs_md ∅).1.2 !! id16 = None.
Proof.
  destruct (GetFile_not_found 600000001041 id16 fs_md ∅) as (_ & _ & Hexp).
  apply (Hexp meta_md).
  - reflexivity.
  - vm_compute. reflexivity.
Defined.

Lemma AddFile_error_leaves_store_witness :
  ErrWriteDisk ∈ [ErrGenerateID; ErrReadContent; ErrConversion; ErrWriteDisk] ∧
  files fs_md = files fs_md ∧ ramStore fs_md = ramStore fs_md ∧
  currentRAMUsage fs_md = currentRAMUsage fs_md.
Proof.
  apply (AddFile_error_leaves_store unix_join (env_big_failing "big.bin") ""
           fs_md ∅ ErrWriteDisk fs_md
           (<[unix_join defaultDiskPath (id16b +:+ "_" +:+ "big.bin") := []]> ∅)).
  apply AddFile_big_failing.
Defined.

(** C7 as stated fails on the upload [env_md]: the clock read 1000 for
    [UploadTime] and 1040 for [ExpiryTime], so the record's [ExpiryTime]
    is not its [UploadTime] plus [fileExpiryDuration]. *)
Lemma ExpiryTime_not_UploadTime_plus_duration :
  AddFile unix_join env_md "html" fs0 ∅ = (Ok meta_md, fs_md, ∅) ∧
  UploadTime meta_md = 1000 ∧
  ExpiryTime meta_md = 600000001040 ∧
  ExpiryTime meta_md ≠ time_Add (UploadTime meta_md) fileExpiryDuration.
Proof. split; [apply AddFile_md|]. vm_compute. repeat split; discriminate. Qed.

Lemma ExpiryTime_from_second_reading_witness :
  UploadTime meta_md = time_Now_upload env_md ∧
  ExpiryTime meta_md = time_Add (time_Now_expiry env_md) fileExpiryDuration ∧
  time_Add (UploadTime meta_md) fileExpiryDuration <= ExpiryTime meta_md.
Proof.
  destruct (ExpiryTime_from_second_reading unix_join env_md "html" fs0 ∅
              meta_md fs_md ∅ AddFile_md) as (HU & HE & Hle & _).
  split; [exact HU|]. split; [exact HE|]. apply Hle. vm_compute. discriminate.
Defined.

Lemma deleteFileInternal_idempotent_witness :
  deleteFileInternal "0000" fs_md ∅ = (fs_md, ∅).
Proof.
  destruct (deleteFileInternal_idempotent "0000" fs_md ∅) as (Habsent & _).
  apply Habsent. reflexivity.
Defined.

(** C9 as stated fails: were the file name a function of the identifier
    alone, the two uploads of [bigPayload] under the names a.txt and b.txt,
    both given the identifier [id16], would be written to the same path;
    they go to temp_files/[id16]_a.txt and temp_files/[id16]_b.txt. *)
Lemma disk_file_name_not_from_id_alone :
  ¬ ∃ name_of : string → string,
      ∀ env tf fs d meta fs' d',
        reachable unix_join fs d →
        AddFile unix_join env tf fs d = (Ok meta, fs', d') →
        IsInMemory meta = false →
        Path meta = unix_join (diskPath fs) (name_of (ID meta)).
Proof.
  intros [name_of Hname].
  pose proof (Hname (env_big "a.txt") "" fs0 ∅ _ _ _
                (reachable_fs0 ∅) (AddFile_big "a.txt") eq_refl) as Ha.
  pose proof (Hname (env_big "b.txt") "" fs0 ∅ _ _ _
                (reachable_fs0 ∅) (AddFile_big "b.txt") eq_refl) as Hb.
  change (ID (meta_big "a.txt")) with id16 in Ha.
  change (ID (meta_big "b.txt")) with id16 in Hb.
  rewrite <- Hb in Ha. vm_compute in Ha. discriminate.
Qed.

Lemma disk_file_path_witness :
  Path (meta_big "a.txt")
    = unix_join (diskPath fs0)
        (ID (meta_big "a.txt") +:+ "_" +:+ ConvertedName (meta_big "a.txt")) ∧
  Path (meta_big "a.txt") = "temp_files/3a910ce457b2681fd04ba6239e75c80d_a.txt".
Proof.
  destruct (disk_file_path unix_join (env_big "a.txt") "" fs0 ∅
              (meta_big "a.txt") (fs_big "a.txt") (disk_big "a.txt")
              (AddFile_big "a.txt") eq_refl) as (Hpath & _).
  split; [exact Hpath|]. reflexivity.
Defined.

Lemma expiry_is_strict_witness :
  GetFile (ExpiryTime meta_md) id16 fs_md ∅
    = (Ok (meta_md, bytes_of html_of_hi), fs_md, ∅) ∧
  files (cleanupTick (ExpiryTime meta_md) fs_md ∅).1 !! id16 = Some meta_md.
Proof.
  destruct (expiry_is_strict unix_join id16 fs_md ∅ meta_md)
    as (_ & Hget & _ & _ & Hsweep).
  - reflexivity.
  - split; [|exact Hsweep]. apply Hget. reflexivity.
Defined.

Lemma reachable_store_consistent_witness : consistent fs_md.
Proof. apply (reachable_store_consistent unix_join fs_md ∅ reachable_fs_md). Defined.

Lemma usage_counter_sum_of_Size_witness :
  sizesMatch fs_plain ∧ memorySizes (files fs_plain) = currentRAMUsage fs_plain.
Proof.
  apply (usage_counter_sum_of_Size unix_join fs_plain ∅).
  apply (reach_AddFile _ _ env_md "" fs0 ∅ (Ok meta_plain) fs_plain ∅).
  - by apply (reach_new _ _ true true "").
  - apply admissible_fresh. intros raw [= <-]. split.
    + vm_compute. discriminate.
    + intros conv name [= <- _]. vm_compute. discriminate.
  - intros Htf. by destruct Htf.
  - vm_compute. reflexivity.
Defined.

Lemma Size_is_submitted_length_witness : Size meta_md = len64 (bytes_of "hi").
Proof.
  destruct (Size_is_submitted_length unix_join env_md "html" fs0 ∅ meta_md fs_md ∅
              (bytes_of "hi") AddFile_md eq_refl) as (Hsize & _).
  exact Hsize.
Defined.

Lemma cleanupTick_leaves_no_expired_witness : 600000001040 <= ExpiryTime meta_md.
Proof.
  apply (cleanupTick_leaves_no_expired 600000001040 fs_md ∅ id16 meta_md).
  vm_compute. reflexivity.
Defined.

(** * Identifiers *)

Lemma EncodeToString_length b :
  String.length (EncodeToString b) = (2 * length b)%nat.
Proof. induction b as [|v b IH]; simpl; [done|]. rewrite IH. lia. Qed.

(** Ranging over the sixteen values of a hexadecimal digit. *)
Lemma below_16 (P : N → Prop) :
  P 0%N → P 1%N → P 2%N → P 3%N → P 4%N → P 5%N → P 6%N → P 7%N →
  P 8%N → P 9%N → P 10%N → P 11%N → P 12%N → P 13%N → P 14%N → P 15%N →
  ∀ n, (n < 16)%N → P n.
Proof.
  intros H0 H1 H2 H3 H4 H5 H6 H7 H8 H9 H10 H11 H12 H13 H14 H15 n Hn.
  destruct n as [|p]; [done|].
  destruct p as [[[[p|p|]|[p|p|]|]|[[p|p|]|[p|p|]|]|]|[[[p|p|]|[p|p|]|]|[[p|p|]|[p|p|]|]|]|];
    try done; lia.
Qed.

Lemma hexdigit_in_table n :
  (n < 16)%N → hexdigit n ∈ list_ascii_of_string hextable.
Proof.
  revert n. apply below_16; vm_compute;
    repeat first [apply list_elem_of_here | apply list_elem_of_further].
Qed.

Lemma hexdigit_inj n m :
  (n < 16)%N → (m < 16)%N → hexdigit n = hexdigit m → n = m.
Proof.
  intros Hn Hm. revert n Hn.
  apply (below_16 (λ n, hexdigit n = hexdigit m → n = m)); revert m Hm;
    match goal with
    | |- ∀ m, _ → hexdigit ?k = _ → _ =>
        apply (below_16 (λ m, hexdigit k = hexdigit m → k = m))
    end; vm_compute; congruence.
Qed.

Lemma byte_nibbles v :
  (N.shiftr (Byte.to_N v) 4 < 16)%N ∧ (N.land (Byte.to_N v) 15 < 16)%N ∧
  Byte.to_N v = (16 * N.shiftr (Byte.to_N v) 4 + N.land (Byte.to_N v) 15)%N.
Proof.
  pose proof (Byte.to_N_bounded v) as Hv.
  rewrite N.shiftr_div_pow2. change 15%N with (N.ones 4).
  rewrite N.land_ones. change (2 ^ 4)%N with 16%N.
  pose proof (N.div_mod (Byte.to_N v) 16). 
  pose proof (N.mod_upper_bound (Byte.to_N v) 16).
  assert (Byte.to_N v / 16 < 16)%N by (apply N.Div0.div_lt_upper_bound; lia).
  lia.
Qed.

Lemma EncodeToString_chars b c :
  c ∈ list_ascii_of_string (EncodeToString b) →
  c ∈ list_ascii_of_string hextable.
Proof.
  induction b as [|v b IH]; simpl.
  - intros H. by apply elem_of_nil in H.
  - destruct (byte_nibbles v) as (Hhi & Hlo & _).
    intros H. apply elem_of_cons in H as [->|H]; [by apply hexdigit_in_table|].
    apply elem_of_cons in H as [->|H]; [by apply hexdigit_in_table|].
    by apply IH.
Qed.

Lemma EncodeToString_inj b b' :
  EncodeToString b = EncodeToString b' → b = b'.
Proof.
  revert b'. induction b as [|v b IH]; intros [|v' b']; simpl; try done.
  intros [= Hhi Hlo Hrest].
  destruct (byte_nibbles v) as (H1 & H2 & Hv).
  destruct (byte_nibbles v') as (H1' & H2' & Hv').
  apply hexdigit_inj in Hhi; [|done..]. apply hexdigit_inj in Hlo; [|done..].
  assert (Byte.to_N v = Byte.to_N v') as Heq by lia.
  assert (Some v = Some v') as [= ->]
    by (rewrite <- (Byte.of_to_N v), <- (Byte.of_to_N v'); by rewrite Heq).
  f_equal. by apply IH.
Qed.

(** X5: an identifier [generateID] returns is the lower-case hexadecimal
    writing of the random bytes: two characters of 0-9a-f per byte, and
    different random bytes give different identifiers. *)
Theorem generateID_format r id :
  generateID r = Some id →
  ∃ b, r = Some b ∧
    String.length id = (2 * length b)%nat ∧
    (∀ c, c ∈ list_ascii_of_string id → c ∈ list_ascii_of_string hextable) ∧
    (∀ b', generateID (Some b') = Some id → b' = b).
Proof.
  destruct r as [b|]; [|done]. simpl. intros [= <-]. exists b.
  split; [done|]. split; [apply EncodeToString_length|].
  split; [apply EncodeToString_chars|].
  intros b' [= H]. by apply EncodeToString_inj.
Qed.

(** * A stored record while other requests are served *)

Lemma append_same_length_inj (a b s t : string) :
  String.length a = String.length b → a +:+ s = b +:+ t → a = b ∧ s = t.
Proof.
  revert b. induction a as [|c a IH]; intros [|c' b]; simpl; try done.
  intros [= Hlen] [= -> Happ]. destruct (IH b Hlen Happ) as [-> ->]. done.
Qed.

Lemma deleteFileInternal_diskPath id fs d :
  diskPath (deleteFileInternal id fs d).1 = diskPath fs.
Proof. by delete_cases id fs d. Qed.

Lemma GetFile_diskPath now id fs d :
  diskPath (GetFile now id fs d).1.2 = diskPath fs.
Proof.
  destruct (GetFile_state now id fs d) as [H|H].
  - by injection H as -> _.
  - assert ((GetFile now id fs d).1.2 = (deleteFileInternal id fs d).1) as ->
      by (by rewrite <- H).
    apply deleteFileInternal_diskPath.
Qed.

Section Persistence.

Variable filepath_Join : string -> string -> string.

Lemma idsWellFormed_shrink fs fs' :
  (∀ id m, files fs' !! id = Some m → files fs !! id = Some m) →
  idsWellFormed fs → idsWellFormed fs'.
Proof. intros Hsub Hids id m Hid. eapply Hids, Hsub, Hid. Qed.

Lemma pathsCanonical_shrink fs fs' :
  (∀ id m, files fs' !! id = Some m → files fs !! id = Some m) →
  diskPath fs' = diskPath fs →
  pathsCanonical filepath_Join fs → pathsCanonical filepath_Join fs'.
Proof.
  intros Hsub Hdp Hpaths id m Hid Hmem. rewrite Hdp.
  by apply Hpaths; [apply Hsub|].
Qed.

Lemma storeOK_new mkdir1 mkdir2 path fs :
  NewFileStore mkdir1 mkdir2 path = Some fs → storeOK filepath_Join fs.
Proof.
  intros Hnew. split; [by eapply consistent_new|].
  assert (files fs = ∅) as Hempty.
  { unfold NewFileStore in Hnew.
    destruct mkdir1; [|destruct mkdir2]; by simplify_eq. }
  split; intros id m Hid; by rewrite Hempty, lookup_empty in Hid.
Qed.

Lemma storeOK_delete id fs d :
  storeOK filepath_Join fs → storeOK filepath_Join (deleteFileInternal id fs d).1.
Proof.
  intros (Hc & Hids & Hpaths).
  destruct (deleteFileInternal_shrinks id fs d) as [Hsub _].
  split; [by apply consistent_delete|]. split.
  - by eapply idsWellFormed_shrink.
  - eapply pathsCanonical_shrink; [done| |done].
    apply deleteFileInternal_diskPath.
Qed.

Lemma storeOK_GetFile now id fs d :
  storeOK filepath_Join fs → storeOK filepath_Join (GetFile now id fs d).1.2.
Proof.
  intros Hok. destruct (GetFile_state now id fs d) as [H|H].
  - by injection H as -> _.
  - pose proof (storeOK_delete id fs d Hok) as Hd. by rewrite <- H in Hd.
Qed.

Lemma storeOK_cleanupOver now entries fs d :
  storeOK filepath_Join fs →
  storeOK filepath_Join (cleanupOver now entries fs d).1.
Proof.
  revert fs d. induction entries as [|e entries IH]; intros fs d Hok; [done|].
  rewrite cleanupOver_cons. apply IH. unfold cleanupBody. simpl.
  destruct (time_After now (ExpiryTime e.2)); [|done].
  by apply storeOK_delete.
Qed.

Lemma storeOK_AddFile env tf fs d :
  storeOK filepath_Join fs → admissible env tf fs → sixteenBytes env tf →
  storeOK filepath_Join (AddFile filepath_Join env tf fs d).1.2.
Proof.
  intros (Hc & Hids & Hpaths) Hadm H16.
  split; [by apply consistent_AddFile|].
  destruct (AddFile_cases filepath_Join env tf fs d)
    as [[_ ->]|[[_ ->]|[(id & raw & _ & _ & _ & ->)
       |(id & raw & meta & s & stored & Hid & Hraw & Hconv & ->)]]];
    try done.
  assert (String.length id = 32%nat) as Hlen.
  { unfold generateID in Hid. destruct (rand_Read env) as [b|] eqn:Hb; [|done].
    injection Hid as <-. rewrite EncodeToString_length, (H16 b); done. }
  destruct (Z.le_gt_cases (int64_add (currentRAMUsage fs) s) ramLimitBytes)
    as [Hle|Hgt].
  - rewrite placeStep_ram by done. simpl. split.
    + intros k m. simpl. rewrite lookup_insert. case_decide; [by subst|].
      apply Hids.
    + intros k m. simpl. rewrite lookup_insert. case_decide.
      * by intros [= <-].
      * apply Hpaths.
  - rewrite placeStep_disk by done. simpl.
    destruct (os_WriteFile env); [|done]. simpl. split.
    + intros k m. simpl. rewrite lookup_insert. case_decide; [by subst|].
      apply Hids.
    + intros k m. simpl. rewrite lookup_insert. case_decide.
      * subst. by intros [= <-].
      * apply Hpaths.
Qed.

Lemma reachableWith_storeOK fs d :
  reachableWith filepath_Join sixteenBytes fs d → storeOK filepath_Join fs.
Proof.
  induction 1 as [mk1 mk2 path fs d Hnew
                 |env tf fs d r fs' d' _ IH Hadm H16 Hstep
                 |now id fs d r fs' d' _ IH Hstep
                 |id fs d fs' d' _ IH Hstep
                 |now entries fs d fs' d' _ IH _ Hstep].
  - by eapply storeOK_new.
  - after_step Hstep (storeOK_AddFile env tf fs d IH Hadm H16).
  - after_step Hstep (storeOK_GetFile now id fs d IH).
  - after_step Hstep (storeOK_delete id fs d IH).
  - after_step Hstep (storeOK_cleanupOver now entries fs d IH).
Qed.

Lemma evolvesUntil_storeOK keep deadline s s' :
  evolvesUntil filepath_Join keep deadline s s' →
  storeOK filepath_Join s.1 → storeOK filepath_Join s'.1.
Proof.
  induction 1 as [s
                 |env tf s fs d r fs' d' _ IH Hadm H16 Hstep
                 |now id s fs d r fs' d' _ IH _ Hstep
                 |id s fs d fs' d' _ IH _ Hstep
                 |now entries s fs d fs' d' _ IH _ _ Hstep];
    intros Hok; [done|..]; specialize (IH Hok); simpl in *.
  - after_step Hstep (storeOK_AddFile env tf fs d IH Hadm H16).
  - after_step Hstep (storeOK_GetFile now id fs d IH).
  - after_step Hstep (storeOK_delete id fs d IH).
  - after_step Hstep (storeOK_cleanupOver now entries fs d IH).
Qed.

(** *** The record and its bytes stay *)

(** Two disk records of a well-kept store have different files, when
    [filepath.Join] tells file names apart. *)
Lemma distinct_paths fs id1 m1 id2 m2 :
  (∀ dir a b, filepath_Join dir a = filepath_Join dir b → a = b) →
  storeOK filepath_Join fs →
  files fs !! id1 = Some m1 → IsInMemory m1 = false →
  files fs !! id2 = Some m2 → IsInMemory m2 = false →
  id1 ≠ id2 → Path m1 ≠ Path m2.
Proof.
  intros Hinj (_ & Hids & Hpaths) H1 Hd1 H2 Hd2 Hne Heq.
  rewrite (Hpaths _ _ H1 Hd1), (Hpaths _ _ H2 Hd2) in Heq.
  apply Hinj in Heq. apply append_same_length_inj in Heq as [? _]; [done|].
  by rewrite (Hids _ _ H1), (Hids _ _ H2).
Qed.

Lemma deleteFileInternal_disk_cases id fs d :
  (deleteFileInternal id fs d).2 = d ∨
  ∃ m, files fs !! id = Some m ∧ IsInMemory m = false ∧
       (deleteFileInternal id fs d).2 = delete (Path m) d.
Proof. delete_cases id fs d; eauto. Qed.

Lemma holds_delete id meta x k fs d :
  (IsInMemory meta = false →
   ∀ dir a b, filepath_Join dir a = filepath_Join dir b → a = b) →
  storeOK filepath_Join fs → k ≠ id →
  holds id meta x (fs, d) → holds id meta x (deleteFileInternal k fs d).
Proof.
  intros Hinj Hok Hne [Hid Hx]. simpl in Hid, Hx. split.
  - rewrite deleteFileInternal_files. by rewrite lookup_delete_ne.
  - unfold contentOf in *. destruct (IsInMemory meta) eqn:Hmem.
    + by rewrite deleteFileInternal_ramStore_other.
    + destruct (deleteFileInternal_disk_cases k fs d)
        as [->|(m & Hk & Hmemk & ->)]; [done|].
      rewrite lookup_delete_ne; [done|].
      by apply (distinct_paths fs k m id meta (Hinj eq_refl)).
Qed.

Lemma holds_GetFile id meta x now k fs d :
  (IsInMemory meta = false →
   ∀ dir a b, filepath_Join dir a = filepath_Join dir b → a = b) →
  storeOK filepath_Join fs → now <= ExpiryTime meta →
  holds id meta x (fs, d) →
  holds id meta x ((GetFile now k fs d).1.2, (GetFile now k fs d).2).
Proof.
  intros Hinj Hok Hnow Hh. destruct (decide (k = id)) as [->|Hne].
  - destruct Hh as [Hid Hx]. simpl in Hid.
    rewrite (GetFile_live _ _ _ _ _ Hid Hnow).
    by destruct (IsInMemory meta);
      [destruct (ramStore fs !! id) | destruct (d !! Path meta)].
  - destruct (GetFile_state now k fs d) as [->| ->]; [done|].
    by apply holds_delete.
Qed.

Lemma holds_cleanupOver id meta x now entries fs d :
  (IsInMemory meta = false →
   ∀ dir a b, filepath_Join dir a = filepath_Join dir b → a = b) →
  storeOK filepath_Join fs →
  (∀ m, (id, m) ∈ entries → now <= ExpiryTime m) →
  holds id meta x (fs, d) →
  holds id meta x (cleanupOver now entries fs d).
Proof.
  intros Hinj. revert fs d.
  induction entries as [|[k mk] entries IH]; intros fs d Hok Hlive Hh; [done|].
  rewrite cleanupOver_cons.
  assert (storeOK filepath_Join (cleanupBody now (fs, d) (k, mk)).1 ∧
          holds id meta x (cleanupBody now (fs, d) (k, mk))) as [Hok' Hh'].
  { unfold cleanupBody, time_After. simpl.
    destruct (Z.ltb_spec (ExpiryTime mk) now) as [Hlt|Hge]; [|done].
    assert (k ≠ id) as Hne.
    { intros ->. specialize (Hlive mk (list_elem_of_here _ _)). lia. }
    split; [by apply storeOK_delete | by apply holds_delete]. }
  destruct (cleanupBody now (fs, d) (k, mk)) as [fs1 d1]. apply IH; [done| |done].
  intros m Hin. apply Hlive. by apply list_elem_of_further.
Qed.

Lemma holds_AddFile id meta x env tf fs d :
  (IsInMemory meta = false →
   ∀ dir a b, filepath_Join dir a = filepath_Join dir b → a = b) →
  storeOK filepath_Join fs → admissible env tf fs → sixteenBytes env tf →
  holds id meta x (fs, d) →
  holds id meta x ((AddFile filepath_Join env tf fs d).1.2,
                   (AddFile filepath_Join env tf fs d).2).
Proof.
  intros Hinj Hok [Hfresh _] H16 [Hid Hx]. simpl in Hid, Hx.
  destruct (AddFile_cases filepath_Join env tf fs d)
    as [[_ ->]|[[_ ->]|[(k & raw & _ & _ & _ & ->)
       |(k & raw & m0 & s & stored & Hk & Hraw & Hconv & ->)]]];
    try done.
  assert (k ≠ id) as Hne by (intros ->; rewrite (Hfresh _ Hk) in Hid; done).
  assert (String.length k = 32%nat) as Hlen.
  { unfold generateID in Hk. destruct (rand_Read env) as [b|] eqn:Hb; [|done].
    injection Hk as <-. rewrite EncodeToString_length, (H16 b); done. }
  assert (IsInMemory meta = false → ∀ n,
            filepath_Join (diskPath fs) (k +:+ "_" +:+ n) ≠ Path meta) as Hpath.
  { intros Hmem n Heq. destruct Hok as (_ & Hids & Hpaths).
    rewrite (Hpaths _ _ Hid Hmem) in Heq. apply (Hinj Hmem) in Heq.
    apply append_same_length_inj in Heq as [? _]; [done|].
    by rewrite Hlen, (Hids _ _ Hid). }
  destruct (Z.le_gt_cases (int64_add (currentRAMUsage fs) s) ramLimitBytes)
    as [Hle|Hgt].
  - rewrite placeStep_ram by done. split; simpl.
    + by rewrite lookup_insert_ne.
    + unfold contentOf in *. simpl. destruct (IsInMemory meta); [|done].
      by rewrite lookup_insert_ne.
  - rewrite placeStep_disk by done. simpl.
    destruct (os_WriteFile env) as [|leftover]; split; simpl; try done.
    + by rewrite lookup_insert_ne.
    + unfold contentOf in *. simpl. destruct (IsInMemory meta) eqn:Hmem; [done|].
      rewrite lookup_insert_ne; [done|]. by apply Hpath.
    + unfold contentOf in *. destruct (IsInMemory meta) eqn:Hmem; [done|].
      destruct leftover as [junk|]; simpl; [|done].
      rewrite lookup_insert_ne; [done|]. by apply Hpath.
Qed.

Lemma evolvesUntil_holds id meta x s s' :
  (IsInMemory meta = false →
   ∀ dir a b, filepath_Join dir a = filepath_Join dir b → a = b) →
  evolvesUntil filepath_Join id (ExpiryTime meta) s s' →
  storeOK filepath_Join s.1 → holds id meta x s → holds id meta x s'.
Proof.
  intros Hinj Hev Hok Hh.
  induction Hev as [s
                   |env tf s fs d r fs' d' Hev IH Hadm H16 Hstep
                   |now k s fs d r fs' d' Hev IH Hnow Hstep
                   |k s fs d fs' d' Hev IH Hne Hstep
                   |now entries s fs d fs' d' Hev IH Hnow Hperm Hstep];
    [done|..]; specialize (IH Hok Hh);
    pose proof (evolvesUntil_storeOK _ _ _ _ Hev Hok) as Hok'; simpl in Hok'.
  - after_step Hstep (holds_AddFile id meta x env tf fs d Hinj Hok' Hadm H16 IH).
  - after_step Hstep (holds_GetFile id meta x now k fs d Hinj Hok' Hnow IH).
  - after_step Hstep (holds_delete id meta x k fs d Hinj Hok' Hne IH).
  - rewrite <- Hstep. apply holds_cleanupOver; [done..| |done].
    intros m Hin. rewrite Hperm in Hin. apply elem_of_map_to_list in Hin.
    destruct IH as [Hid _]. simpl in Hid. by assert (m = meta) as -> by congruence.
Qed.

(** What a successful [AddFile] leaves: the record under its identifier,
    standing for the bytes it stored. *)
Lemma AddFile_holds env tf fs d meta fs1 d1 :
  AddFile filepath_Join env tf fs d = (Ok meta, fs1, d1) →
  ∃ raw meta0 stored,
    io_ReadAll env = Some raw ∧
    convertStep env tf (newMeta env (ID meta) (len64 raw)) (len64 raw) raw
      = Some (meta0, len64 stored, stored) ∧
    holds (ID meta) meta stored (fs1, d1).
Proof.
  intros Hadd.
  apply AddFile_ok in Hadd as (id & raw & meta0 & stored & _ & Hraw & Hconv & Hplace).
  pose proof (convertStep_fields _ _ _ _ _ _ _ Hconv) as (_ & Hkey & _).
  simpl in Hkey.
  assert (ID meta = id) as Hid.
  { apply placeStep_ok in Hplace as [(_ & -> & _)|(_ & _ & -> & _)]; done. }
  rewrite Hid. exists raw, meta0, stored. split; [done|]. split; [done|].
  apply placeStep_ok in Hplace as [(_ & Hm & -> & ->)|(_ & _ & Hm & -> & ->)];
    split; simpl; try apply lookup_insert_eq;
    unfold contentOf; rewrite Hm at 1; simpl; apply lookup_insert_eq.
Qed.

Lemma holds_GetFile_ok id meta x now fs d :
  holds id meta x (fs, d) → now <= ExpiryTime meta →
  GetFile now id fs d = (Ok (meta, x), fs, d).
Proof.
  intros [Hid Hx] Hnow. simpl in Hid, Hx. unfold contentOf in Hx.
  rewrite (GetFile_live _ _ _ _ _ Hid Hnow).
  destruct (IsInMemory meta); by rewrite Hx.
Qed.

(** X6: bytes stored in memory stay retrievable. After a successful
    [AddFile] that placed the record in memory, whatever uploads, reads of
    any identifier and sweeps follow up to the record's [ExpiryTime], and
    whatever other records are deleted, the record is still in the table
    and [GetFile] returns it with exactly the bytes that were stored. *)
Theorem memory_bytes_persist env tf fs d meta fs1 d1 fs2 d2 :
  reachableWith filepath_Join sixteenBytes fs d →
  admissible env tf fs → sixteenBytes env tf →
  AddFile filepath_Join env tf fs d = (Ok meta, fs1, d1) →
  IsInMemory meta = true →
  evolvesUntil filepath_Join (ID meta) (ExpiryTime meta) (fs1, d1) (fs2, d2) →
  ∃ raw meta0 stored,
    io_ReadAll env = Some raw ∧
    convertStep env tf (newMeta env (ID meta) (len64 raw)) (len64 raw) raw
      = Some (meta0, len64 stored, stored) ∧
    files fs2 !! ID meta = Some meta ∧
    ∀ now, now <= ExpiryTime meta →
      GetFile now (ID meta) fs2 d2 = (Ok (meta, stored), fs2, d2).
Proof.
  intros Hreach Hadm H16 Hadd Hmem Hev.
  assert (storeOK filepath_Join fs1) as Hok.
  { pose proof (storeOK_AddFile env tf fs d (reachableWith_storeOK _ _ Hreach)
                  Hadm H16) as H. by rewrite Hadd in H. }
  destruct (AddFile_holds _ _ _ _ _ _ _ Hadd)
    as (raw & meta0 & stored & Hraw & Hconv & Hh).
  exists raw, meta0, stored. split; [done|]. split; [done|].
  assert (holds (ID meta) meta stored (fs2, d2)) as Hh2.
  { eapply evolvesUntil_holds; [|exact Hev|done|done]. congruence. }
  split; [apply Hh2|]. intros now Hnow. by apply holds_GetFile_ok.
Qed.


(** *** No file of a record goes missing *)

Section FilesPresent.

Hypothesis Join_inj :
  ∀ dir a b, filepath_Join dir a = filepath_Join dir b → a = b.







End FilesPresent.

End Persistence.

(** * The conversion tables *)

Lemma mapLookup_elem_of {K V : Type} `{EqDecision K} (k : K) (m : list (K * V)) v :
  mapLookup k m = Some v → (k, v) ∈ m.
Proof.
  induction m as [|[k' v'] m IH]; simpl; [done|]. case_decide as Hk.
  - intros [= ->]. subst. apply list_elem_of_here.
  - intros Hv. apply list_elem_of_further. by apply IH.
Qed.

(** What holds of every entry of [ConversionMap] holds of every supported
    conversion. *)
Lemma supported_forall (P : FileType → string → string → Prop) :
  Forall (λ tfm, Forall (λ ef, Forall (P tfm.1 ef.1) ef.2) tfm.2) ConversionMap →
  ∀ t ext target,
    target ∈ GetSupportedConversionFormats t ext → P t ext target.
Proof.
  intros Hall t ext target. unfold GetSupportedConversionFormats.
  destruct (mapLookup t ConversionMap) as [fm|] eqn:Ht;
    [|intros H; by apply elem_of_nil in H].
  destruct (mapLookup ext fm) as [formats|] eqn:Hext;
    [|intros H; by apply elem_of_nil in H].
  intros Htarget.
  apply mapLookup_elem_of in Ht. apply mapLookup_elem_of in Hext.
  rewrite Forall_forall in Hall. specialize (Hall _ Ht). simpl in Hall.
  rewrite Forall_forall in Hall. specialize (Hall _ Hext). simpl in Hall.
  rewrite Forall_forall in Hall. by apply Hall.
Qed.

Ltac check_table :=
  unfold ConversionMap; repeat (apply Forall_cons; split; simpl);
  try apply Forall_nil; vm_compute; try done; repeat split; congruence.

(** X9: every target format [GetSupportedConversionFormats] offers has a
    MIME type of its own in [getContentTypeForExtension], and that type is
    the [ContentType] of the record when [AddFile] succeeds with this
    target format: a file converted to a supported format is never
    recorded as application/octet-stream. *)
Theorem supported_target_has_content_type t ext target :
  target ∈ GetSupportedConversionFormats t ext →
  getContentTypeForExtension target ≠ "application/octet-stream" ∧
  ∀ filepath_Join env fs d meta fs' d',
    AddFile filepath_Join env target fs d = (Ok meta, fs', d') →
    ContentType meta = getContentTypeForExtension target.
Proof.
  intros Hsupported.
  assert (target ≠ EmptyString ∧
          getContentTypeForExtension target ≠ "application/octet-stream")
    as [Hne Htype].
  { revert t ext target Hsupported.
    apply (supported_forall
             (λ _ _ target,
                target ≠ EmptyString ∧
                getContentTypeForExtension target ≠ "application/octet-stream")).
    check_table. }
  split; [done|]. intros filepath_Join env fs d meta fs' d' Hadd.
  apply AddFile_ok in Hadd as (id & raw & meta0 & stored & _ & _ & Hconv & Hplace).
  apply convertStep_some in Hconv as [(Hempty & _)|(_ & name & _ & -> & _)];
    [done|].
  apply placeStep_ok in Hplace as [(_ & -> & _)|(_ & _ & -> & _)]; done.
Qed.

Lemma supported_agrees_with_extension_aux t ext target :
  target ∈ GetSupportedConversionFormats t ext →
  extensionType ext = t ∧ t ≠ FileTypeOther ∧ target ≠ ext.
Proof.
  revert t ext target.
  apply (supported_forall
           (λ t ext target,
              extensionType ext = t ∧ t ≠ FileTypeOther ∧ target ≠ ext)).
  check_table.
Qed.

(** X10: a conversion is offered only for a detected type that is also
    the type the extension switch of [DetectFileType] gives the
    extension, never for [FileTypeOther], and never to the format the
    file already has. *)
Theorem supported_agrees_with_extension t ext target :
  target ∈ GetSupportedConversionFormats t ext →
  extensionType ext = t ∧ t ≠ FileTypeOther ∧ target ≠ ext.
Proof. apply supported_agrees_with_extension_aux. Qed.

Lemma formatListed_elem_of target formats :
  formatListed target formats = true ↔ target ∈ formats.
Proof.
  unfold formatListed. rewrite existsb_exists. split.
  - intros (f & Hin & Heq). apply String.eqb_eq in Heq as ->.
    by apply list_elem_of_In.
  - intros Hin. exists target. split; [by apply list_elem_of_In|].
    apply String.eqb_refl.
Qed.

Section Dispatch.

Variable strings_ToLower : string -> string.
Variable http_DetectContentType : list byte -> string.

(** The check inside performConversion is the check of handleUpload. *)
Lemma performConversionWith_check cv bytes filename target :
  performConversionWith strings_ToLower http_DetectContentType cv bytes filename target =
    if formatListed target
         (GetSupportedConversionFormats
            (DetectFileType strings_ToLower http_DetectContentType bytes filename).1
            (DetectFileType strings_ToLower http_DetectContentType bytes filename).2)
    then
      let out := strings_TrimSuffix filename (filepath_Ext filename) +:+ "." +:+ target in
      let ext := (DetectFileType strings_ToLower http_DetectContentType bytes filename).2 in
      match (DetectFileType strings_ToLower http_DetectContentType bytes filename).1 with
      | FileTypeImage => convertImage cv bytes out target
      | FileTypeAudio => convertAudio cv bytes out ext target
      | FileTypeVideo => convertVideo cv bytes out ext target
      | FileTypeDoc => convertDocumentWith cv bytes out ext target
      | FileTypeArchive => convertArchive cv bytes out ext target
      | FileTypeOther => ConvFailed ErrUnsupportedType
      end
    else ConvFailed ErrNotSupported.
Proof.
  unfold performConversionWith, GetSupportedConversionFormats.
  destruct (DetectFileType _ _ bytes filename) as [ft ext].
  cbn [fst snd].
  destruct (mapLookup ft ConversionMap) as [fm|]; [|reflexivity].
  destruct (mapLookup ext fm) as [formats|]; [|reflexivity].
  by destruct (formatListed target formats).
Qed.

(** X11: performConversion and handleUpload agree on what is supported.
    For a request with a target format, performConversion answers
    "conversion ... is not supported" exactly when the check of
    handleUpload rejects the same bytes, name and format; when the check
    accepts them the detected type is not [FileTypeOther], so the
    "unsupported file type" case of the switch is not the one taken, and
    the result is that of the converter of the detected type, called with
    the output name made of the name without its extension, a dot and the
    target format. *)
Theorem performConversion_agrees_with_upload_check cv bytes filename target :
  target ≠ EmptyString →
  (uploadValidated strings_ToLower http_DetectContentType bytes filename target = false →
     performConversionWith strings_ToLower http_DetectContentType cv bytes filename target
       = ConvFailed ErrNotSupported) ∧
  (uploadValidated strings_ToLower http_DetectContentType bytes filename target = true →
     (DetectFileType strings_ToLower http_DetectContentType bytes filename).1
       ≠ FileTypeOther ∧
     target ∈ GetSupportedConversionFormats
       (DetectFileType strings_ToLower http_DetectContentType bytes filename).1
       (DetectFileType strings_ToLower http_DetectContentType bytes filename).2 ∧
     performConversionWith strings_ToLower http_DetectContentType cv bytes filename target =
       match (DetectFileType strings_ToLower http_DetectContentType bytes filename).1 with
       | FileTypeImage =>
           convertImage cv bytes
             (strings_TrimSuffix filename (filepath_Ext filename) +:+ "." +:+ target)
             target
       | FileTypeAudio =>
           convertMediaWithFFmpeg cv bytes
             (strings_TrimSuffix filename (filepath_Ext filename) +:+ "." +:+ target)
             (DetectFileType strings_ToLower http_DetectContentType bytes filename).2
             "audio"
       | FileTypeVideo =>
           convertVideo cv bytes
             (strings_TrimSuffix filename (filepath_Ext filename) +:+ "." +:+ target)
             (DetectFileType strings_ToLower http_DetectContentType bytes filename).2
             target
       | FileTypeDoc =>
           convertDocumentWith cv bytes
             (strings_TrimSuffix filename (filepath_Ext filename) +:+ "." +:+ target)
             (DetectFileType strings_ToLower http_DetectContentType bytes filename).2
             target
       | _ =>
           convertArchive cv bytes
             (strings_TrimSuffix filename (filepath_Ext filename) +:+ "." +:+ target)
             (DetectFileType strings_ToLower http_DetectContentType bytes filename).2
             target
       end).
Proof.
  intros Htarget. rewrite performConversionWith_check.
  unfold uploadValidated. rewrite decide_False by done.
  destruct (DetectFileType _ _ bytes filename) as [ft ext] eqn:Hdetect. simpl.
  split; intros Hcheck; rewrite Hcheck; [done|].
  apply formatListed_elem_of in Hcheck.
  destruct (supported_agrees_with_extension_aux ft ext target Hcheck) as (_ & Hft & _).
  split; [done|]. split; [done|]. by destruct ft.
Qed.

End Dispatch.

(** * Documents and Markdown *)

Section DocumentFacts.

Variable filepath_Join : string -> string -> string.

(** X12: convertDocument carries out three conversions only, Markdown to
    html, Markdown to txt and txt to pdf. Every other pair fails, with
    "failed to write temporary input file" or "not implemented yet",
    whatever the environment does; among them are conversions that
    [ConversionMap] offers for documents. *)
Theorem convertDocument_implemented env bytes out ext target d :
  (∀ b n d', convertDocument filepath_Join env bytes out ext target d
               = (Converted b n, d') →
             documentImplemented ext target) ∧
  (¬ documentImplemented ext target →
     ∃ e d', convertDocument filepath_Join env bytes out ext target d
               = (ConvFailed e, d') ∧
             (e = ErrTempInput ∨ e = ErrNotImplemented)) ∧
  (target ∈ GetSupportedConversionFormats FileTypeDoc ext →
     ext ∉ ["md"; "txt"] → ¬ documentImplemented ext target).
Proof.
  assert (¬ documentImplemented ext target →
     ∃ e d', convertDocument filepath_Join env bytes out ext target d
               = (ConvFailed e, d') ∧
             (e = ErrTempInput ∨ e = ErrNotImplemented)) as Hfail.
  { intros Hnot. unfold convertDocument.
    destruct (write_input env); [|eauto].
    destruct (bool_decide (ext = "md")) eqn:Hmd;
      destruct (bool_decide (target = "html")) eqn:Hhtml;
      destruct (bool_decide (target = "txt")) eqn:Htxt;
      destruct (bool_decide (ext = "txt")) eqn:Hetxt;
      destruct (bool_decide (target = "pdf")) eqn:Hpdf;
      simpl; eauto;
      exfalso; apply Hnot; unfold documentImplemented;
      repeat match goal with
             | H : bool_decide _ = true |- _ => apply bool_decide_eq_true in H
             end; tauto. }
  split; [|split; [done|]].
  - intros b n d' Hconv.
    destruct (decide (documentImplemented ext target)) as [|Hnot]; [done|].
    destruct (Hfail Hnot) as (e & d'' & Heq & _). congruence.
  - intros _ Hext [[-> _]|[-> _]]; set_solver.
Qed.

End DocumentFacts.

(** ** The HTML written for a Markdown file *)

Lemma length_append (a b : string) :
  String.length (a +:+ b) = (String.length a + String.length b)%nat.
Proof.
  induction a as [|c a IH]; [done|].
  change (String c a +:+ b) with (String c (a +:+ b)). simpl. by rewrite IH.
Qed.

Lemma length_list_byte_of_string s :
  length (list_byte_of_string s) = String.length s.
Proof.
  unfold list_byte_of_string. rewrite length_map.
  induction s as [|c s IH]; simpl; [done|]. by rewrite IH.
Qed.

Lemma length_string_of_list_byte b :
  String.length (string_of_list_byte b) = length b.
Proof.
  rewrite <- (list_byte_of_string_of_list_byte b) at 2.
  by rewrite length_list_byte_of_string.
Qed.

Lemma HasPrefix_drop s prefix :
  strings_HasPrefix s prefix = true →
  (String.length (string_drop (String.length prefix) s) + String.length prefix
   = String.length s)%nat.
Proof.
  unfold strings_HasPrefix. revert s.
  induction prefix as [|c prefix IH]; intros s; simpl.
  - intros _. lia.
  - destruct s as [|c' s]; [done|]. simpl.
    destruct (Ascii.ascii_dec c c'); [|done]. intros H. rewrite <- (IH s H). lia.
Qed.

(** Each line comes out at least six bytes longer. *)
Lemma renderLine_length line :
  (String.length line + 6 <= String.length (renderLine line))%nat.
Proof.
  unfold renderLine.
  destruct (strings_HasPrefix line "# ") eqn:H1;
    [apply HasPrefix_drop in H1; rewrite !length_append; simpl in *; lia|].
  destruct (strings_HasPrefix line "## ") eqn:H2;
    [apply HasPrefix_drop in H2; rewrite !length_append; simpl in *; lia|].
  destruct (strings_HasPrefix line "### ") eqn:H3;
    [apply HasPrefix_drop in H3; rewrite !length_append; simpl in *; lia|].
  destruct (strings_HasPrefix line "- ") eqn:H4;
    [apply HasPrefix_drop in H4; rewrite !length_append; simpl in *; lia|].
  case_decide; [subst|]; rewrite !length_append; simpl; lia.
Qed.

(** The pieces of [strings.Split] and the newlines between them make up
    the string. *)
Lemma Split_newline_length s :
  strings_Split_newline s ≠ [] ∧
  (foldr (λ piece n, String.length piece + n) 0 (strings_Split_newline s)
   + length (strings_Split_newline s) = String.length s + 1)%nat.
Proof.
  induction s as [|c s [Hne IH]]; simpl; [split; [done|lia]|].
  destruct (Ascii.eqb c "010"); simpl; [split; [done|lia]|].
  destruct (strings_Split_newline s) as [|piece pieces]; [done|].
  simpl in *. split; [done|lia].
Qed.

Lemma render_lines_length lines html :
  (String.length html
   + foldr (λ piece n, String.length piece + n) 0 lines + 6 * length lines
   <= String.length (foldl (λ html line, html +:+ renderLine line) html lines))%nat.
Proof.
  revert html. induction lines as [|line lines IH]; intros html; simpl; [lia|].
  specialize (IH (html +:+ renderLine line)). rewrite length_append in IH.
  pose proof (renderLine_length line). lia.
Qed.

Lemma markdownToHTML_length md :
  len64 md + 33 <= len64 (markdownToHTML md).
Proof.
  unfold len64, markdownToHTML.
  rewrite length_list_byte_of_string, length_append.
  pose proof (render_lines_length
                (strings_Split_newline (string_of_list_byte md))
                ("<html><body>" +:+ newline)) as Hlines.
  destruct (Split_newline_length (string_of_list_byte md)) as [Hne Hsplit].
  rewrite length_string_of_list_byte in Hsplit.
  assert (1 <= length (strings_Split_newline (string_of_list_byte md)))%nat
    by (destruct (strings_Split_newline (string_of_list_byte md)); simpl; [done|lia]).
  change (String.length ("<html><body>" +:+ newline)) with 13%nat in Hlines.
  change (String.length "</body></html>") with 14%nat.
  lia.
Qed.

(** The conversion used in the examples is this rendering. *)
Lemma markdownToHTML_hi : markdownToHTML (bytes_of "hi") = bytes_of html_of_hi.
Proof. vm_compute. reflexivity. Qed.

Section MarkdownUploads.

Variable filepath_Join : string -> string -> string.

(** X13: the HTML written for a Markdown file is at least 33 bytes longer
    than the file. Hence, whenever [AddFile] stores such a rendering of
    the upload, the [Size] of the record, which is the length of the
    upload, is at least 33 bytes less than the length of the content it
    stands for. *)
Theorem markdown_upload_Size_too_small env tf fs d meta fs' d' raw name :
  AddFile filepath_Join env tf fs d = (Ok meta, fs', d') →
  io_ReadAll env = Some raw →
  tf ≠ EmptyString →
  performConversion env raw (Filename env) tf = Some (markdownToHTML raw, name) →
  contentOf fs' d' (ID meta) meta = Some (markdownToHTML raw) ∧
  Size meta = len64 raw ∧
  Size meta + 33 <= len64 (markdownToHTML raw).
Proof.
  intros Hadd Hraw Htf Hperf.
  pose proof (AddFile_Size _ _ _ _ _ _ _ _ _ Hadd Hraw) as Hsize.
  destruct (AddFile_holds _ _ _ _ _ _ _ _ Hadd)
    as (raw' & meta0 & stored & Hraw' & Hconv & _ & Hcontent).
  assert (raw' = raw) as -> by congruence.
  apply convertStep_some in Hconv as [(-> & _)|(_ & name' & Hperf' & _)]; [done|].
  assert (stored = markdownToHTML raw) as -> by congruence.
  split; [done|]. split; [done|]. rewrite Hsize. apply markdownToHTML_length.
Qed.

(** X14: a Markdown document converted by convertDocument, when both
    temporary files can be written and have different paths: the result
    is the rendering of the input for "html" and the input itself for
    "txt"; the temporary input file is removed, and the temporary output
    file is left in the temporary directory with the result in it. *)
Theorem convertDocument_markdown env bytes out target d :
  write_input env = WriteDone → write_output env = WriteDone →
  target = "html" ∨ target = "txt" →
  filepath_Join (os_TempDir env) "input.md" ≠ filepath_Join (os_TempDir env) out →
  ∃ d',
    convertDocument filepath_Join env bytes out "md" target d =
      (Converted (if decide (target = "html") then markdownToHTML bytes else bytes)
         (filepath_Base (filepath_Join (os_TempDir env) out)), d') ∧
    d' !! filepath_Join (os_TempDir env) "input.md" = None ∧
    d' !! filepath_Join (os_TempDir env) out
      = Some (if decide (target = "html") then markdownToHTML bytes else bytes) ∧
    ∀ p, p ≠ filepath_Join (os_TempDir env) "input.md" →
         p ≠ filepath_Join (os_TempDir env) out → d' !! p = d !! p.
Proof.
  intros Hin Hout Htarget Hpaths.
  unfold convertDocument, convertMarkdown. rewrite Hin, Hout.
  change ("input." +:+ "md") with "input.md".
  rewrite bool_decide_eq_true_2 by done.
  assert (bool_decide (target = "html") || bool_decide (target = "txt") = true)
    as -> by (destruct Htarget as [-> | ->]; done).
  simpl. rewrite lookup_insert_eq.
  assert ((if decide (target = "html") then Some (markdownToHTML bytes)
           else if decide (target = "txt") then Some bytes else None)
          = Some (if decide (target = "html") then markdownToHTML bytes else bytes))
    as -> by (destruct Htarget as [-> | ->]; done).
  rewrite lookup_delete_ne, lookup_insert_eq by done.
  eexists. split; [done|]. split; [apply lookup_delete_eq|].
  split; [by rewrite lookup_delete_ne, lookup_insert_eq|].
  intros p Hp1 Hp2. by rewrite lookup_delete_ne, !lookup_insert_ne.
Qed.

End MarkdownUploads.

(** * The handlers *)







Section Handlers.

Variable strings_ToLower : string -> string.
Variable http_DetectContentType : list byte -> string.
Variable filepath_Join : string -> string -> string.

(** The fields of the record of an upload without target format. *)
Lemma AddFile_plain_fields env fs d meta fs' d' :
  AddFile filepath_Join env "" fs d = (Ok meta, fs', d') →
  ConvertedName meta = Filename env ∧
  ContentType meta = HeaderContentType env ∧
  ExpiryTime meta = time_Add (time_Now_expiry env) fileExpiryDuration.
Proof.
  intros Hadd.
  apply AddFile_ok in Hadd as (id & raw & meta0 & stored & _ & _ & Hconv & Hplace).
  rewrite convertStep_none in Hconv. injection Hconv as <- _ _.
  apply placeStep_ok in Hplace as [(_ & -> & _)|(_ & _ & -> & _)]; done.
Qed.

Lemma AddFile_error_store env tf fs d e fs' d' :
  AddFile filepath_Join env tf fs d = (Err e, fs', d') → fs' = fs.
Proof.
  intros Hadd.
  destruct (AddFile_cases filepath_Join env tf fs d)
    as [[_ H]|[[_ H]|[(id & raw & _ & _ & _ & H)
       |(id & raw & meta0 & s & stored & _ & _ & _ & H)]]];
    rewrite H in Hadd; try by injection Hadd as _ <- _.
  destruct (Z.le_gt_cases (int64_add (currentRAMUsage fs) s) ramLimitBytes)
    as [Hle|Hgt].
  - by rewrite placeStep_ram in Hadd.
  - rewrite placeStep_disk in Hadd by done.
    destruct (os_WriteFile env); [done|]. by injection Hadd as _ <- _.
Qed.

Lemma uploadStore_cases req fs d :
  (∃ meta fs' d',
     AddFile filepath_Join (upload req) (FormValue_targetFormat req) fs d
       = (Ok meta, fs', d') ∧
     uploadStore filepath_Join req fs d =
       (UploadJSON (ID meta) (ConvertedName meta) ("/download/" +:+ ID meta),
        fs', d')) ∨
  (∃ e d',
     AddFile filepath_Join (upload req) (FormValue_targetFormat req) fs d
       = (Err e, fs, d') ∧
     uploadStore filepath_Join req fs d = (UploadError 500, fs, d')).
Proof.
  unfold uploadStore.
  destruct (AddFile filepath_Join (upload req) (FormValue_targetFormat req) fs d)
    as [[[meta|e] fs'] d'] eqn:Hadd.
  - left. by exists meta, fs', d'.
  - right. apply AddFile_error_store in Hadd as Hfs. subst. by exists e, d'.
Qed.

(** The ways through handleUpload: it stops before AddFile, leaving the
    store and the disk alone, or it answers with what [uploadStore] does. *)
Lemma handleUpload_cases req fs d :
  (∃ status,
     handleUpload strings_ToLower http_DetectContentType filepath_Join req fs d
       = (UploadError status, fs, d) ∧
     (status = 405 ∧ Method req ≠ "POST" ∨
      status = 400 ∧ Method req = "POST")) ∨
  (Method req = "POST" ∧
   (FormValue_targetFormat req = EmptyString ∨
    ∃ tempFile,
      validation_ReadAll req = Some tempFile ∧
      uploadValidated strings_ToLower http_DetectContentType tempFile
        (Filename (upload req)) (FormValue_targetFormat req) = true) ∧
   handleUpload strings_ToLower http_DetectContentType filepath_Join req fs d
     = uploadStore filepath_Join req fs d).
Proof.
  unfold handleUpload.
  destruct (String.eqb_spec (Method req) "POST") as [Hpost|Hpost]; simpl;
    [|left; eauto].
  destruct (ParseMultipartForm_ok req); simpl; [|left; eauto].
  destruct (FormFile_ok req); simpl; [|left; eauto].
  case_decide as Htf; [right; eauto|].
  destruct (validation_ReadAll req) as [tempFile|]; [|left; eauto].
  destruct (uploadValidated _ _ tempFile _ _) eqn:Hcheck; [|left; eauto].
  right. eauto 10.
Qed.

(** X15: what handleUpload answers and what it does to the store. An
    answer other than the JSON object leaves the metadata table, the
    content table and the usage counter as they were; with 405 (the method
    is not POST) or 400 (form, validation read or unsupported target
    format) AddFile was not called and the disk is untouched too; 500 is
    an error of AddFile. The JSON object is sent exactly for a successful
    AddFile and names the record now in the table: its [ID], its
    [ConvertedName], and "/download/" followed by the [ID]. *)
Theorem handleUpload_answers req fs d resp fs1 d1 :
  handleUpload strings_ToLower http_DetectContentType filepath_Join req fs d
    = (resp, fs1, d1) →
  match resp with
  | UploadError status =>
      fs1 = fs ∧
      (status = 405 ∧ Method req ≠ "POST" ∧ d1 = d ∨
       status = 400 ∧ Method req = "POST" ∧ d1 = d ∨
       status = 500 ∧ Method req = "POST" ∧
         ∃ e, AddFile filepath_Join (upload req) (FormValue_targetFormat req) fs d
                = (Err e, fs, d1))
  | UploadJSON fileId fileName downloadUrl =>
      Method req = "POST" ∧
      ∃ meta,
        AddFile filepath_Join (upload req) (FormValue_targetFormat req) fs d
          = (Ok meta, fs1, d1) ∧
        fileId = ID meta ∧ fileName = ConvertedName meta ∧
        downloadUrl = "/download/" +:+ ID meta ∧
        files fs1 !! fileId = Some meta
  end.
Proof.
  intros Hup.
  destruct (handleUpload_cases req fs d)
    as [(status & Heq & Hstatus)|(Hpost & _ & Heq)]; rewrite Heq in Hup.
  - injection Hup as <- <- <-. split; [done|]. tauto.
  - destruct (uploadStore_cases req fs d)
      as [(meta & fs' & d' & Hadd & Hst)|(e & d' & Hadd & Hst)];
      rewrite Hst in Hup; injection Hup as <- <- <-.
    + split; [done|]. exists meta. repeat split; try done.
      destruct (AddFile_holds _ _ _ _ _ _ _ _ Hadd) as (_ & _ & _ & _ & _ & Hh & _).
      exact Hh.
    + split; [done|]. right. right. eauto.
Qed.




Section EndToEnd.

Hypothesis Join_inj :
  ∀ dir a b, filepath_Join dir a = filepath_Join dir b → a = b.


End EndToEnd.

End Handlers.

(** * The ledger of the store *)

Section Ledger.

Variable filepath_Join : string -> string -> string.

(** X17: the usage counter moves by exactly the bytes that enter and
    leave the content table. In a reachable store, a successful [AddFile]
    raises it by the length of the stored bytes when the record goes to
    memory and leaves it alone when the record goes to disk;
    [deleteFileInternal] lowers it by the length of the content of a
    memory record and leaves it alone for a disk record or an unknown
    identifier. No wrap-around occurs. *)
Theorem usage_counter_ledger fs d :
  reachable filepath_Join fs d →
  (∀ env tf meta fs' d',
     admissible env tf fs →
     AddFile filepath_Join env tf fs d = (Ok meta, fs', d') →
     ∃ stored,
       contentOf fs' d' (ID meta) meta = Some stored ∧
       currentRAMUsage fs' =
         currentRAMUsage fs + (if IsInMemory meta then len64 stored else 0)) ∧
  (∀ id,
     currentRAMUsage (deleteFileInternal id fs d).1 =
       match files fs !! id with
       | Some meta =>
           if IsInMemory meta
           then currentRAMUsage fs - from_option len64 0 (ramStore fs !! id)
           else currentRAMUsage fs
       | None => currentRAMUsage fs
       end ∧
     0 <= currentRAMUsage (deleteFileInternal id fs d).1 <= currentRAMUsage fs).
Proof.
  intros Hreach.
  pose proof (reachableWith_consistent _ _ _ _ Hreach) as Hc.
  pose proof (cons_budget _ Hc) as Hu.
  split.
  - intros env tf meta fs' d' [_ Hlen] Hadd.
    apply AddFile_ok in Hadd as (id & raw & meta0 & stored & _ & Hraw & Hconv & Hplace).
    exists stored.
    assert (sliceLenOk stored) as Hstored.
    { destruct (Hlen _ Hraw) as [Hrawlen Hconvlen].
      apply convertStep_some in Hconv as [(_ & _ & _ & ->)|(_ & name & Hperf & _)];
        eauto. }
    pose proof (convertStep_fields _ _ _ _ _ _ _ Hconv) as (_ & Hkey & _).
    simpl in Hkey.
    pose proof (len64_nonneg stored).
    apply placeStep_ok in Hplace as [(_ & Hm & -> & _)|(_ & _ & Hm & -> & ->)];
      subst meta; unfold contentOf; simpl.
    + rewrite Hkey, lookup_insert_eq. split; [done|].
      apply int64_add_budget; unfold sliceLenOk in Hstored; lia.
    + rewrite lookup_insert_eq. split; [done|]. by rewrite Z.add_0_r.
  - intros id.
    destruct (files fs !! id) as [meta|] eqn:Hid;
      [|rewrite deleteFileInternal_absent by done; simpl; lia].
    destruct (IsInMemory meta) eqn:Hmem.
    + destruct (cons_entry _ Hc _ _ Hid Hmem) as [data Hram].
      rewrite (deleteFileInternal_ram _ _ _ _ _ Hid Hmem Hram), Hram. simpl.
      pose proof (ramBytes_delete _ _ _ Hram) as Hsum.
      pose proof (ramBytes_nonneg (delete id (ramStore fs))).
      pose proof (len64_nonneg data).
      pose proof (cons_usage _ Hc).
      rewrite int64_sub_budget by lia. lia.
    + rewrite (deleteFileInternal_disk _ _ _ _ Hid Hmem). simpl. lia.
Qed.

(** X18: records are written once. An [AddFile] with a fresh identifier
    keeps every record of the table as it is and adds at most its own;
    [GetFile], [deleteFileInternal] and a sweep only take records away: a
    record found afterwards was there before, under the same identifier
    and with the same fields, tier and path included. *)
Theorem records_are_written_once fs d :
  (∀ env tf id meta,
     admissible env tf fs → files fs !! id = Some meta →
     files (AddFile filepath_Join env tf fs d).1.2 !! id = Some meta) ∧
  (∀ env tf id meta,
     files (AddFile filepath_Join env tf fs d).1.2 !! id = Some meta →
     files fs !! id = Some meta ∨
     (AddFile filepath_Join env tf fs d).1.1 = Ok meta ∧ ID meta = id) ∧
  (∀ now k id meta,
     files (GetFile now k fs d).1.2 !! id = Some meta → files fs !! id = Some meta) ∧
  (∀ k id meta,
     files (deleteFileInternal k fs d).1 !! id = Some meta →
     files fs !! id = Some meta) ∧
  (∀ now entries id meta,
     files (cleanupOver now entries fs d).1 !! id = Some meta →
     files fs !! id = Some meta).
Proof.
  split; [|split; [|split; [|split]]].
  - intros env tf id meta [Hfresh _] Hid.
    destruct (AddFile_cases filepath_Join env tf fs d)
      as [[_ ->]|[[_ ->]|[(k & raw & _ & _ & _ & ->)
         |(k & raw & m0 & s & stored & Hk & _ & _ & ->)]]];
      try done.
    assert (k ≠ id) as Hne by (intros ->; rewrite (Hfresh _ Hk) in Hid; done).
    destruct (Z.le_gt_cases (int64_add (currentRAMUsage fs) s) ramLimitBytes).
    + rewrite placeStep_ram by done. simpl. by rewrite lookup_insert_ne.
    + rewrite placeStep_disk by done. simpl.
      destruct (os_WriteFile env); simpl; [|done]. by rewrite lookup_insert_ne.
  - intros env tf id meta.
    destruct (AddFile_cases filepath_Join env tf fs d)
      as [[_ ->]|[[_ ->]|[(k & raw & _ & _ & _ & ->)
         |(k & raw & m0 & s & stored & Hk & Hraw & Hconv & ->)]]];
      simpl; eauto.
    pose proof (convertStep_fields _ _ _ _ _ _ _ Hconv) as (_ & Hkey & _).
    simpl in Hkey.
    destruct (Z.le_gt_cases (int64_add (currentRAMUsage fs) s) ramLimitBytes).
    + rewrite placeStep_ram by done. simpl. rewrite lookup_insert.
      case_decide; [|eauto]. intros [= <-]. right. by subst.
    + rewrite placeStep_disk by done. simpl.
      destruct (os_WriteFile env); simpl; [|eauto]. rewrite lookup_insert.
      case_decide; [|eauto]. intros [= <-]. right. by subst.
  - intros now k id meta. apply GetFile_keeps_records.
  - intros k id meta. apply (deleteFileInternal_shrinks k fs d).
  - intros now entries id meta Hafter.
    by apply cleanupOver_lookup in Hafter as [? _].
Qed.

(** X19: when every record is past its time, one tick of the sweeper
    empties the store: no record and no content is left and the usage
    counter is back at 0. *)
Theorem sweep_after_all_expired now fs d :
  reachable filepath_Join fs d →
  (∀ id meta, files fs !! id = Some meta → ExpiryTime meta < now) →
  files (cleanupTick now fs d).1 = ∅ ∧
  ramStore (cleanupTick now fs d).1 = ∅ ∧
  currentRAMUsage (cleanupTick now fs d).1 = 0.
Proof.
  intros Hreach Hexpired.
  assert (consistent (cleanupTick now fs d).1) as Hc.
  { apply consistent_cleanupOver. by eapply reachableWith_consistent. }
  assert (files (cleanupTick now fs d).1 = ∅) as Hfiles.
  { apply map_empty. intros id. unfold cleanupTick.
    rewrite (cleanupOver_sweeps now _ fs d id) by done.
    destruct (files fs !! id) as [meta|] eqn:Hid; [|done].
    unfold time_After. pose proof (Hexpired _ _ Hid).
    by destruct (Z.ltb_spec (ExpiryTime meta) now); [|lia]. }
  assert (ramStore (cleanupTick now fs d).1 = ∅) as Hram.
  { apply map_empty. intros id.
    destruct (ramStore (cleanupTick now fs d).1 !! id) as [data|] eqn:Hdata;
      [|done].
    destruct (cons_record _ Hc _ _ Hdata) as (m & Hm & _).
    by rewrite Hfiles, lookup_empty in Hm. }
  split; [done|]. split; [done|].
  by rewrite (cons_usage _ Hc), Hram, ramBytes_empty.
Qed.

End Ledger.

(** * The media converters *)

(** X20: the ffmpeg command of every conversion that [ConversionMap]
    offers for audio and video. For a video, convertVideo runs FFmpeg in
    the audio mode exactly when the target is an audio format, and the
    command then copies the audio stream (-vn -acodec copy); for another
    target the command scales to 1280x720. For an audio file the command
    sets the bitrate 192k: no audio extension starts with one of the
    video prefixes that select the copy. *)
Theorem ffmpeg_command_by_conversion cv bytes out i o t ext target :
  target ∈ GetSupportedConversionFormats t ext →
  (t = FileTypeVideo →
     let mediaType :=
       if decide (extensionType target = FileTypeAudio) then "audio" else "video" in
     convertVideo cv bytes out ext target =
       convertMediaWithFFmpeg cv bytes out ext mediaType ∧
     FFmpeg.arguments mediaType ext i o =
       if decide (extensionType target = FileTypeAudio)
       then ["-i"; i; "-vn"; "-acodec"; "copy"; o]
       else ["-i"; i; "-s"; "1280x720"; o]) ∧
  (t = FileTypeAudio →
     convertAudio cv bytes out ext target =
       convertMediaWithFFmpeg cv bytes out ext "audio" ∧
     FFmpeg.arguments "audio" ext i o = ["-i"; i; "-ab"; "192k"; o]).
Proof.
  revert t ext target.
  apply (supported_forall
           (λ t ext target,
              (t = FileTypeVideo →
                 let mediaType :=
                   if decide (extensionType target = FileTypeAudio)
                   then "audio" else "video" in
                 convertVideo cv bytes out ext target =
                   convertMediaWithFFmpeg cv bytes out ext mediaType ∧
                 FFmpeg.arguments mediaType ext i o =
                   if decide (extensionType target = FileTypeAudio)
                   then ["-i"; i; "-vn"; "-acodec"; "copy"; o]
                   else ["-i"; i; "-s"; "1280x720"; o]) ∧
              (t = FileTypeAudio →
                 convertAudio cv bytes out ext target =
                   convertMediaWithFFmpeg cv bytes out ext "audio" ∧
                 FFmpeg.arguments "audio" ext i o = ["-i"; i; "-ab"; "192k"; o]))).
  unfold ConversionMap; repeat (apply Forall_cons; split; simpl);
    try apply Forall_nil;
    (split; intros Ht; try discriminate Ht; split; reflexivity).
Qed.

(** X21: the temporary files of a media conversion. When the conversion
    succeeds, the name returned is the output file name, the bytes are
    those ffmpeg left in the output file, and both temporary files are
    removed. When ffmpeg is missing the files are untouched. When ffmpeg
    fails, or its output cannot be read, the function returns without
    removing its input: as long as ffmpeg itself leaves its input file
    alone, the uploaded bytes stay in the temporary directory. *)
Theorem failed_ffmpeg_keeps_input filepath_Join env bytes out ext mediaType d :
  let i := filepath_Join (FFmpeg.TempDir env) ("input." +:+ ext) in
  let o := filepath_Join (FFmpeg.TempDir env) out in
  (∀ args d', (FFmpeg.CombinedOutput env args d').2 !! i = d' !! i) →
  let r := FFmpeg.convertMediaWithFFmpeg filepath_Join env bytes out ext mediaType d in
  match r.1 with
  | Converted outputBytes name =>
      name = out ∧
      (FFmpeg.CombinedOutput env (FFmpeg.arguments mediaType ext i o)
         (<[i := bytes]> d)).2 !! o = Some outputBytes ∧
      r.2 !! i = None ∧ r.2 !! o = None
  | ConvFailed e =>
      (e = ErrNoFFmpeg ∧ FFmpeg.LookPath_ffmpeg env = false ∧ r.2 = d) ∨
      (e = ErrTempInput ∧
       ∃ leftover, FFmpeg.write_input env = WriteFailed leftover ∧
                   r.2 = failedWrite i leftover d) ∨
      ((e = ErrFFmpegFailed ∨ e = ErrReadConvertedFile) ∧ r.2 !! i = Some bytes)
  end.
Proof.
  intros i o Hinput r. subst r. unfold FFmpeg.convertMediaWithFFmpeg.
  fold i o.
  destruct (FFmpeg.LookPath_ffmpeg env); simpl; [|by left].
  destruct (FFmpeg.write_input env) as [|leftover]; simpl; [|right; left; eauto].
  pose proof (Hinput (FFmpeg.arguments mediaType ext i o) (<[i := bytes]> d)) as Hkept.
  rewrite lookup_insert_eq in Hkept.
  destruct (FFmpeg.CombinedOutput env (FFmpeg.arguments mediaType ext i o)
              (<[i := bytes]> d)) as [ok d1] eqn:Hrun.
  simpl in Hkept. destruct ok; simpl; [|right; right; eauto].
  destruct (d1 !! o) as [outputBytes|] eqn:Hout; simpl; [|right; right; eauto].
  split; [done|]. split; [done|]. split.
  - destruct (decide (o = i)) as [->|Hne].
    + by rewrite lookup_delete_eq.
    + by rewrite lookup_delete_ne, lookup_delete_eq.
  - by rewrite lookup_delete_eq.
Qed.

(** * Instances of the further theorems *)


Lemma reachableWith_fs0 P d : reachableWith unix_join P fs0 d.
Proof. by apply (reach_new _ _ true true ""). Qed.

Lemma admissible_env_md tf : admissible env_md tf fs0.
Proof.
  apply admissible_fresh. intros raw [= <-]. split.
  - vm_compute. discriminate.
  - intros conv name [= <- _]. vm_compute. discriminate.
Qed.

Lemma sixteenBytes_env_md tf : sixteenBytes env_md tf.
Proof. intros b [= <-]. reflexivity. Qed.

Lemma AddFile_plain : AddFile unix_join env_md "" fs0 ∅ = (Ok meta_plain, fs_plain, ∅).
Proof. vm_compute. reflexivity. Qed.


(** The whole chain on the upload of a.md to be converted to html:
    handleUpload, its validation, AddFile, performConversion,
    convertDocument and convertMarkdown lead to the store [fs_md]. *)
Lemma handleUpload_md :
  handleUpload lower_case_already detect_plain_text unix_join req_md fs0 ∅
    = (UploadJSON id16 "a.html" ("/download/" +:+ id16), fs_md, ∅).
Proof. vm_compute. reflexivity. Qed.


Lemma generateID_format_witness :
  ∃ b, Some rand16 = Some b ∧
    String.length id16 = (2 * length b)%nat ∧
    (∀ c, c ∈ list_ascii_of_string id16 → c ∈ list_ascii_of_string hextable) ∧
    (∀ b', generateID (Some b') = Some id16 → b' = b).
Proof. apply (generateID_format (Some rand16) id16). reflexivity. Defined.

Lemma evolves_after_a_read :
  evolvesUntil unix_join id16 (ExpiryTime meta_plain) (fs_plain, ∅) (fs_plain, ∅).
Proof.
  apply (evolve_GetFile unix_join id16 _ 2000 "0000" (fs_plain, ∅) fs_plain ∅
           (Err ErrNotFoundOrExpired) fs_plain ∅).
  - apply evolve_refl.
  - vm_compute. discriminate.
  - reflexivity.
Qed.

Lemma memory_bytes_persist_witness :
  ∃ raw meta0 stored,
    io_ReadAll env_md = Some raw ∧
    convertStep env_md "" (newMeta env_md (ID meta_plain) (len64 raw)) (len64 raw) raw
      = Some (meta0, len64 stored, stored) ∧
    files fs_plain !! ID meta_plain = Some meta_plain ∧
    ∀ now, now <= ExpiryTime meta_plain →
      GetFile now (ID meta_plain) fs_plain ∅ = (Ok (meta_plain, stored), fs_plain, ∅).
Proof.
  apply (memory_bytes_persist unix_join env_md "" fs0 ∅ meta_plain fs_plain ∅ fs_plain ∅).
  - apply reachableWith_fs0.
  - apply admissible_env_md.
  - apply sixteenBytes_env_md.
  - apply AddFile_plain.
  - reflexivity.
  - apply evolves_after_a_read.
Defined.





Lemma supported_target_has_content_type_witness :
  getContentTypeForExtension "html" ≠ "application/octet-stream" ∧
  ∀ filepath_Join env fs d meta fs' d',
    AddFile filepath_Join env "html" fs d = (Ok meta, fs', d') →
    ContentType meta = getContentTypeForExtension "html".
Proof.
  apply (supported_target_has_content_type FileTypeDoc "md" "html").
  vm_compute. apply list_elem_of_here.
Defined.

Lemma supported_agrees_with_extension_witness :
  extensionType "mp4" = FileTypeVideo ∧ FileTypeVideo ≠ FileTypeOther ∧ "mp3" ≠ "mp4".
Proof.
  apply (supported_agrees_with_extension FileTypeVideo "mp4" "mp3").
  vm_compute. do 5 apply list_elem_of_further. apply list_elem_of_here.
Defined.

Lemma performConversion_agrees_with_upload_check_witness :
  performConversionWith lower_case_already detect_plain_text converters_doc
    (bytes_of "hi") "a.md" "html"
  = convertDocumentWith converters_doc (bytes_of "hi") "a.html" "md" "html".
Proof.
  destruct (performConversion_agrees_with_upload_check lower_case_already
              detect_plain_text converters_doc (bytes_of "hi") "a.md" "html")
    as (_ & Hok).
  - discriminate.
  - destruct Hok as (_ & _ & Heq); [reflexivity|]. exact Heq.
Defined.

Lemma convertDocument_implemented_witness :
  "pdf" ∈ GetSupportedConversionFormats FileTypeDoc "docx" ∧
  ∃ e d', convertDocument unix_join tmp_env (bytes_of "hi") "a.pdf" "docx" "pdf" ∅
            = (ConvFailed e, d') ∧
          (e = ErrTempInput ∨ e = ErrNotImplemented).
Proof.
  assert ("pdf" ∈ GetSupportedConversionFormats FileTypeDoc "docx") as Hoffered
    by (vm_compute; apply list_elem_of_here).
  split; [exact Hoffered|].
  destruct (convertDocument_implemented unix_join tmp_env (bytes_of "hi")
              "a.pdf" "docx" "pdf" ∅) as (_ & Hfails & Hnot).
  apply Hfails, Hnot; [exact Hoffered|].
  intros Hin. apply elem_of_cons in Hin as [Hin|Hin]; [discriminate|].
  apply elem_of_cons in Hin as [Hin|Hin]; [discriminate|].
  by apply elem_of_nil in Hin.
Defined.

Lemma markdown_upload_Size_too_small_witness :
  contentOf fs_md ∅ (ID meta_md) meta_md = Some (markdownToHTML (bytes_of "hi")) ∧
  Size meta_md = len64 (bytes_of "hi") ∧
  Size meta_md + 33 <= len64 (markdownToHTML (bytes_of "hi")).
Proof.
  apply (markdown_upload_Size_too_small unix_join env_md "html" fs0 ∅ meta_md fs_md ∅
           (bytes_of "hi") "a.html").
  - apply AddFile_md.
  - reflexivity.
  - discriminate.
  - rewrite markdownToHTML_hi. reflexivity.
Defined.

Lemma convertDocument_markdown_witness :
  ∃ d',
    convertDocument unix_join tmp_env (bytes_of "hi") "a.html" "md" "html" ∅ =
      (Converted
         (if decide ("html" = "html") then markdownToHTML (bytes_of "hi")
          else bytes_of "hi")
         (filepath_Base (unix_join (os_TempDir tmp_env) "a.html")), d') ∧
    d' !! unix_join (os_TempDir tmp_env) "input.md" = None ∧
    d' !! unix_join (os_TempDir tmp_env) "a.html"
      = Some (if decide ("html" = "html") then markdownToHTML (bytes_of "hi")
              else bytes_of "hi") ∧
    ∀ p, p ≠ unix_join (os_TempDir tmp_env) "input.md" →
         p ≠ unix_join (os_TempDir tmp_env) "a.html" → d' !! p = (∅ : Disk) !! p.
Proof.
  apply (convertDocument_markdown unix_join tmp_env (bytes_of "hi") "a.html" "html" ∅).
  - reflexivity.
  - reflexivity.
  - by left.
  - vm_compute. discriminate.
Defined.

Lemma handleUpload_answers_witness :
  Method req_md = "POST" ∧
  ∃ meta,
    AddFile unix_join (upload req_md) (FormValue_targetFormat req_md) fs0 ∅
      = (Ok meta, fs_md, ∅) ∧
    id16 = ID meta ∧ "a.html" = ConvertedName meta ∧
    "/download/" +:+ id16 = "/download/" +:+ ID meta ∧
    files fs_md !! id16 = Some meta.
Proof.
  apply (handleUpload_answers lower_case_already detect_plain_text unix_join
           req_md fs0 ∅ (UploadJSON id16 "a.html" ("/download/" +:+ id16)) fs_md ∅).
  apply handleUpload_md.
Defined.


Lemma usage_counter_ledger_witness :
  ∃ stored,
    contentOf fs_md ∅ (ID meta_md) meta_md = Some stored ∧
    currentRAMUsage fs_md =
      currentRAMUsage fs0 + (if IsInMemory meta_md then len64 stored else 0).
Proof.
  destruct (usage_counter_ledger unix_join fs0 ∅ (reachable_fs0 ∅)) as [Hadd _].
  apply (Hadd env_md "html" meta_md fs_md ∅).
  - apply admissible_env_md.
  - apply AddFile_md.
Defined.

Lemma sweep_after_all_expired_witness :
  files (cleanupTick 700000000000 fs_md ∅).1 = ∅ ∧
  ramStore (cleanupTick 700000000000 fs_md ∅).1 = ∅ ∧
  currentRAMUsage (cleanupTick 700000000000 fs_md ∅).1 = 0.
Proof.
  apply (sweep_after_all_expired unix_join 700000000000 fs_md ∅ reachable_fs_md).
  intros id meta. unfold fs_md. simpl. rewrite lookup_insert.
  case_decide.
  - intros [= <-]. vm_compute. reflexivity.
  - rewrite lookup_empty. discriminate.
Defined.

Lemma ffmpeg_command_by_conversion_witness :
  convertVideo (FFmpeg.converters unix_join ffmpeg_failing ∅)
    (bytes_of "hi") "a.mp3" "mp4" "mp3"
  = convertMediaWithFFmpeg (FFmpeg.converters unix_join ffmpeg_failing ∅)
      (bytes_of "hi") "a.mp3" "mp4" "audio" ∧
  FFmpeg.arguments "audio" "mp4" "/tmp/input.mp4" "/tmp/a.mp3"
  = ["-i"; "/tmp/input.mp4"; "-vn"; "-acodec"; "copy"; "/tmp/a.mp3"].
Proof.
  destruct (ffmpeg_command_by_conversion
              (FFmpeg.converters unix_join ffmpeg_failing ∅) (bytes_of "hi")
              "a.mp3" "/tmp/input.mp4" "/tmp/a.mp3" FileTypeVideo "mp4" "mp3")
    as [Hvideo _].
  - vm_compute. do 5 apply list_elem_of_further. apply list_elem_of_here.
  - exact (Hvideo eq_refl).
Defined.

Lemma failed_ffmpeg_keeps_input_witness :
  (FFmpeg.convertMediaWithFFmpeg unix_join ffmpeg_failing (bytes_of "hi")
     "a.mp3" "mp4" "audio" ∅).1 = ConvFailed ErrFFmpegFailed ∧
  (FFmpeg.convertMediaWithFFmpeg unix_join ffmpeg_failing (bytes_of "hi")
     "a.mp3" "mp4" "audio" ∅).2 !! "/tmp/input.mp4" = Some (bytes_of "hi").
Proof.
  assert ((FFmpeg.convertMediaWithFFmpeg unix_join ffmpeg_failing (bytes_of "hi")
             "a.mp3" "mp4" "audio" ∅).1 = ConvFailed ErrFFmpegFailed) as Hrun
    by reflexivity.
  split; [exact Hrun|].
  pose proof (failed_ffmpeg_keeps_input unix_join ffmpeg_failing (bytes_of "hi")
                "a.mp3" "mp4" "audio" ∅ (λ _ _, eq_refl)) as Hkept.
  cbv zeta in Hkept. rewrite Hrun in Hkept.
  destruct Hkept as [(He & _)|[(He & _)|(_ & Hkept)]];
    [discriminate He|discriminate He|exact Hkept].
Defined.
